(** * The objdump symbol table of the debugger backend

    A shallow embedding of [src/backend/symbols.ts] (class [SymbolTable]):
    the readers of the two objdump reports ([getSections], [getSymbols]), the
    two relocation methods, the relocated-section snapshot and the queries by
    address and by name, followed by the properties of the specification that
    concern them.

    Conventions of the embedding.
    - A JavaScript [number] that holds an address, a size or an offset is a
      [Z]: the values at hand are integers below 2^53, where the arithmetic of
      doubles is exact.
    - A JavaScript string is a [string] whose characters stand for the UTF-16
      code units below 256; objdump prints ASCII.
    - [null] and [undefined] are both [None], each at its own type; where the
      code compares one with the other ([sameFile]) the comparison is spelled
      out.
    - A method that mutates [this] in place is a function from the table
      before the call to the table after it; a method that may [throw]
      returns a [completion]. Records are values, except in [Store], where
      objects have an identity and live on a heap. *)

From Stdlib Require Import Ascii String.
From stdpp Require Import base option list strings numbers gmap.

Local Open Scope string_scope.
Local Open Scope list_scope.
Local Open Scope Z_scope.

(** ** Characters and the string primitives the code calls *)

Definition codeUnit (c : ascii) : N := Ascii.N_of_ascii c.

(** The class [\s] of a JavaScript regular expression, which is also the set
    [String.prototype.trim] strips: TAB, LF, VT, FF, CR, SP and NBSP are its
    members below 256. *)
Definition isWhiteSpace (c : ascii) : bool :=
  let n := codeUnit c in
  ((9 <=? n) && (n <=? 13) || (n =? 32) || (n =? 160))%N.

(** The class [[0-9a-f]]. *)
Definition isHexDigit (c : ascii) : bool :=
  let n := codeUnit c in
  ((48 <=? n) && (n <=? 57) || (97 <=? n) && (n <=? 102))%N.

(** The class [[0-9]]. *)
Definition isDigit (c : ascii) : bool :=
  let n := codeUnit c in
  ((48 <=? n) && (n <=? 57))%N.

(** What [.] matches: everything but the line terminators. *)
Definition isDotChar (c : ascii) : bool :=
  let n := codeUnit c in
  negb ((n =? 10) || (n =? 13))%N.

(** The value of a character of [[0-9a-f]] as a digit. *)
Definition hexValue (c : ascii) : Z :=
  let n := codeUnit c in
  if (n <=? 57)%N then Z.of_N n - 48 else Z.of_N n - 87.

(** [parseInt(s, 16)] on a non-empty run of [[0-9a-f]], the only strings the
    decoder hands to it: the integer that the digits denote. It is the number
    that the code gets as long as it is below 2^53, as the value of eight
    digits always is; a longer run can denote more, and the code then gets the
    nearest double. *)
Definition parseInt16 (s : string) : Z :=
  fold_left (λ acc c, 16 * acc + hexValue c) (String.list_ascii_of_string s) 0.

(** [parseInt(s)] on a non-empty run of [[0-9]]: the integer that the digits
    denote, which is the number that the code gets as long as it is below
    2^53. *)
Definition parseInt10 (s : string) : Z :=
  fold_left (λ acc c, 10 * acc + hexValue c) (String.list_ascii_of_string s) 0.

Fixpoint trimStart (s : string) : string :=
  match s with
  | String c r => if isWhiteSpace c then trimStart r else s
  | EmptyString => EmptyString
  end.

Fixpoint trimEnd (s : string) : string :=
  match s with
  | EmptyString => EmptyString
  | String c r =>
      match trimEnd r with
      | EmptyString => if isWhiteSpace c then EmptyString else String c EmptyString
      | r' => String c r'
      end
  end.

(** [s.trim()] *)
Definition trim (s : string) : string := trimEnd (trimStart s).

(** [s.startsWith(p)] *)
Definition startsWith (s p : string) : bool := String.prefix p s.

(** [s.substring(n)] *)
Fixpoint substringFrom (n : nat) (s : string) : string :=
  match n, s with
  | O, _ => s
  | S n', String _ r => substringFrom n' r
  | S _, EmptyString => EmptyString
  end.

(** [s.replace(/\r/g, '')] *)
Fixpoint removeCR (s : string) : string :=
  match s with
  | EmptyString => EmptyString
  | String c r => if (codeUnit c =? 13)%N then removeCR r else String c (removeCR r)
  end.

(** [s.split('\n')] *)
Fixpoint splitLF (s : string) : list string :=
  match s with
  | EmptyString => [EmptyString]
  | String c r =>
      if (codeUnit c =? 10)%N then EmptyString :: splitLF r
      else match splitLF r with
           | h :: t => String c h :: t
           | [] => [String c EmptyString]
           end
  end.

(** [s.split(', ')] *)
Fixpoint splitCommaSpace (s : string) : list string :=
  match s with
  | EmptyString => [EmptyString]
  | String c r =>
      let continue :=
        match splitCommaSpace r with
        | h :: t => String c h :: t
        | [] => [String c EmptyString]
        end in
      if (codeUnit c =? 44)%N then
        match r with
        | String c' r' =>
            if (codeUnit c' =? 32)%N then EmptyString :: splitCommaSpace r'
            else continue
        | EmptyString => continue
        end
      else continue
  end.

(** ** The regular expression of a symbol line

    [SYMBOL_REGEX] is anchored at both ends and reads, piece by piece:
    eight characters of [[0-9a-f]] (group 1); one [\s]; one character each of
    [[lg !]], [[w ]], [[C ]], [[W ]], [[I ]], [[dD ]] and [[FfO ]] (groups 2
    to 8); one [\s]; one or more characters that are not [\s] (group 9); one
    [\s]; one or more of [[0-9a-f]] (group 10); one [\s]; any run of [.]
    (group 11); an optional CR; the end of the input.
    Every quantified piece is followed by a character outside its class (or
    by the end of the input), so the greedy match is the only one and the
    matcher below needs no backtracking. *)

Module Regex.

(** One character of class [p]. *)
Definition one (p : ascii → bool) (s : string) : option (ascii * string) :=
  match s with
  | String c r => if p c then Some (c, r) else None
  | EmptyString => None
  end.

(** One character among those of [set]. *)
Definition oneOf (set : string) : string → option (ascii * string) :=
  one (λ c, bool_decide (c ∈ String.list_ascii_of_string set)).

(** The longest prefix in class [p], and what follows it. *)
Fixpoint many (p : ascii → bool) (s : string) : string * string :=
  match s with
  | String c r =>
      if p c then let '(m, rest) := many p r in (String c m, rest)
      else (EmptyString, s)
  | EmptyString => (EmptyString, EmptyString)
  end.

(** [p+] before a character that is not in [p]. *)
Definition many1 (p : ascii → bool) (s : string) : option (string * string) :=
  match many p s with
  | (EmptyString, _) => None
  | (m, rest) => Some (m, rest)
  end.

(** [p{n}] *)
Fixpoint exactly (n : nat) (p : ascii → bool) (s : string) : option (string * string) :=
  match n with
  | O => Some (EmptyString, s)
  | S n' =>
      '(c, r) ← one p s;
      '(m, rest) ← exactly n' p r;
      Some (String c m, rest)
  end.

(** The characters of [lit], one after the other. *)
Fixpoint literal (lit : string) (s : string) : option string :=
  match lit with
  | EmptyString => Some s
  | String c lit' =>
      '(_, r) ← one (λ x, bool_decide (x = c)) s;
      literal lit' r
  end.

(** The end of the expression: any run of [.], an optional CR, the end of
    the input. *)
Definition tail (s : string) : option string :=
  match many isDotChar s with
  | (m, EmptyString) => Some m
  | (m, String c EmptyString) => if (codeUnit c =? 13)%N then Some m else None
  | _ => None
  end.

End Regex.

(** The capture groups of a match, numbered as in the source. *)
Record SymbolMatch := {
  m1 : string;   (* address, 8 hex digits *)
  m2 : ascii;    (* scope flag: l g ! or space *)
  m3 : ascii;    (* weak *)
  m4 : ascii;    (* constructor *)
  m5 : ascii;    (* warning *)
  m6 : ascii;    (* indirect *)
  m7 : ascii;    (* debugging / dynamic *)
  m8 : ascii;    (* type flag: F f O or space *)
  m9 : string;   (* section *)
  m10 : string;  (* size, hex *)
  m11 : string   (* name, to the end of the line *)
}.

(** [line.match(SYMBOL_REGEX)] *)
Definition matchSymbol (line : string) : option SymbolMatch :=
  '(g1, s) ← Regex.exactly 8 isHexDigit line;
  '(_, s) ← Regex.one isWhiteSpace s;
  '(g2, s) ← Regex.oneOf "lg !" s;
  '(g3, s) ← Regex.oneOf "w " s;
  '(g4, s) ← Regex.oneOf "C " s;
  '(g5, s) ← Regex.oneOf "W " s;
  '(g6, s) ← Regex.oneOf "I " s;
  '(g7, s) ← Regex.oneOf "dD " s;
  '(g8, s) ← Regex.oneOf "FfO " s;
  '(_, s) ← Regex.one isWhiteSpace s;
  '(g9, s) ← Regex.many1 (λ c, negb (isWhiteSpace c)) s;
  '(_, s) ← Regex.one isWhiteSpace s;
  '(g10, s) ← Regex.many1 isHexDigit s;
  '(_, s) ← Regex.one isWhiteSpace s;
  g11 ← Regex.tail s;
  Some {| m1 := g1; m2 := g2; m3 := g3; m4 := g4; m5 := g5; m6 := g6;
          m7 := g7; m8 := g8; m9 := g9; m10 := g10; m11 := g11 |}.

Definition TAB : string := String (Ascii.ascii_of_nat 9) EmptyString.

(** ** The regular expression of a section header

    [SECTION_REGEX1] is anchored at both ends and reads: one or more [\s];
    one or more of [[0-9]] (group 1, Idx); one [\s]; one or more characters
    that are not [\s] (group 2, Name); then four times one or more [\s] and
    eight characters of [[0-9a-f]] (groups 3 to 6: Size, VMA, LMA, File off);
    one or more [\s]; the characters 2, * and *; one or more of [[0-9]]
    (group 7, Algn); the end of the input. Here too each quantified piece
    ends where its class ends, and the greedy match is the only one. *)

Record SectionMatch := {
  h1 : string;   (* Idx *)
  h2 : string;   (* Name *)
  h3 : string;   (* Size *)
  h4 : string;   (* VMA *)
  h5 : string;   (* LMA *)
  h6 : string;   (* File off *)
  h7 : string    (* Algn *)
}.

(** [line.match(SECTION_REGEX1)] *)
Definition matchSection (line : string) : option SectionMatch :=
  '(_, s) ← Regex.many1 isWhiteSpace line;
  '(g1, s) ← Regex.many1 isDigit s;
  '(_, s) ← Regex.one isWhiteSpace s;
  '(g2, s) ← Regex.many1 (λ c, negb (isWhiteSpace c)) s;
  '(_, s) ← Regex.many1 isWhiteSpace s;
  '(g3, s) ← Regex.exactly 8 isHexDigit s;
  '(_, s) ← Regex.many1 isWhiteSpace s;
  '(g4, s) ← Regex.exactly 8 isHexDigit s;
  '(_, s) ← Regex.many1 isWhiteSpace s;
  '(g5, s) ← Regex.exactly 8 isHexDigit s;
  '(_, s) ← Regex.many1 isWhiteSpace s;
  '(g6, s) ← Regex.exactly 8 isHexDigit s;
  '(_, s) ← Regex.many1 isWhiteSpace s;
  s ← Regex.literal "2**" s;
  '(g7, s) ← Regex.many1 isDigit s;
  if bool_decide (s = EmptyString)
  then Some {| h1 := g1; h2 := g2; h3 := g3; h4 := g4; h5 := g5; h6 := g6; h7 := g7 |}
  else None.

(** ** The data model

    The types below are imported by the source from [../symbols], which is
    not part of this file. *)

(** Modelled from the spec: the enumeration [SymbolType], "one of Function,
    File, Object (data), Normal (other/unknown)"; the code notes that
    [SymbolType.Function] is 0. *)
Module SymbolType.
Inductive t := Function | File | Object | Normal.
#[global] Instance eq_dec : EqDecision t.
Proof. solve_decision. Defined.
End SymbolType.

(** Modelled from the spec: the enumeration [SymbolScope], "one of Local,
    Global, Neither, Both". *)
Module SymbolScope.
Inductive t := Local | Global | Neither | Both.
#[global] Instance eq_dec : EqDecision t.
Proof. solve_decision. Defined.
End SymbolScope.

(** Modelled from the spec: the interface [Section], with the fields of the
    object literal that [getSections] pushes. The type of the [address] slot
    is a parameter: it is a number ([Z]) in every stored Section, and
    [number | undefined] ([option Z]) in the records that
    [getRelocatedSections] builds from a read of a typed array. *)
Module Sec.
Record t (A : Type) := mk {
  name : string;
  address : A;
  size : Z;
  vma : Z;
  lma : Z;
  fileOffset : Z;
  align : Z;
  flags : list string
}.
Arguments mk {A}.
Arguments name {A}.
Arguments address {A}.
Arguments size {A}.
Arguments vma {A}.
Arguments lma {A}.
Arguments fileOffset {A}.
Arguments align {A}.
Arguments flags {A}.

#[global] Instance eq_dec `{EqDecision A} : EqDecision (t A).
Proof. solve_decision. Defined.

(** The record [s] with [a] in its [address] slot: the state of [s] after
    [s.address = a], and the value of [{ ...s, address: a }]. *)
Definition with_address {A B} (s : t A) (a : B) : t B :=
  mk (name s) a (size s) (vma s) (lma s) (fileOffset s) (align s) (flags s).
End Sec.

(** A stored [Section]. *)
Abbreviation SectionRecord := (Sec.t Z).

(** Modelled from the spec: the interface [SymbolInformation], with the
    fields of the object literal that [getSymbols] pushes. [file] is a string
    or [null]; [lines] is "reserved for a later source-line association" and
    always [null] here. *)
Module Sym.
Record t := mk {
  address : Z;
  base : Z;
  type : SymbolType.t;
  scope : SymbolScope.t;
  section : string;
  size : Z;
  name : string;
  lines : option (list Z);
  file : option string;
  hidden : bool
}.

#[global] Instance eq_dec : EqDecision t.
Proof. solve_decision. Defined.

(** The record [s] after [s.base = b]. *)
Definition with_base (s : t) (b : Z) : t :=
  mk (address s) b (type s) (scope s) (section s) (size s) (name s)
     (lines s) (file s) (hidden s).
End Sym.

(** The fields of a [SymbolTable] that the methods read and write. *)
Record SymbolTable := {
  symbols : list Sym.t;
  sections : list SectionRecord
}.

(** ** Completions *)

Inductive Error :=
  | ObjdumpFailed
      (* throw objdump.error *)
  | TypeError
      (* a method called on undefined *)
  | SectionsNotLoaded
      (* "call getSections() before getSymbols()!" *)
  | SectionNotFound (sectionName name : string)
      (* `Section ${sectionName} not found. Symbol: ${name}` *)
  | SectionsMismatch (supplied count : nat).
      (* `... number of sections mismatch (${relocatedBases.length} != ${count})` *)

Inductive completion (A : Type) :=
  | Returns (a : A)
  | Throws (e : Error).
Arguments Returns {A}.
Arguments Throws {A}.

Definition andThen {A B} (c : completion A) (k : A → completion B) : completion B :=
  match c with
  | Returns a => k a
  | Throws e => Throws e
  end.

Notation "'do' x <- c ; k" := (andThen c (λ x, k))
  (at level 10, x name, c at level 100, k at level 200).

(** [array.find(p)]: the first element that satisfies [p], or [undefined]. *)
Definition find {A} (P : A → Prop) `{∀ x, Decision (P x)} (l : list A) : option A :=
  snd <$> list_find P l.

(** What [childProcess.spawnSync] returned, as far as it is read. *)
Record SpawnSyncReturns := {
  status : option Z;   (* number | null *)
  stdout : string
}.

(** ** Reading the sections: [getSections] *)

(** The loop over the lines of the section headers. A line that matches is
    followed by the line of its flags, which the loop consumes ([++i]); when
    the matching line is the last one, [lines[++i]] is [undefined] and the
    call of [trim] on it throws. The alignment [2 ** n] is the power [2 ^ n]
    for an exponent below 1024; from 1024 on the code gets [Infinity]. *)
Fixpoint readSections (lines : list string) : completion (list SectionRecord) :=
  match lines with
  | [] => Returns []
  | line :: rest =>
      match matchSection line with
      | Some match1 =>
          match rest with
          | [] => Throws TypeError
          | next :: rest' =>
              let flags := splitCommaSpace (trim next) in
              do sections <- readSections rest';
              Returns ({| Sec.name := h2 match1;
                          Sec.address := 0;
                          Sec.size := parseInt16 (h3 match1);
                          Sec.vma := parseInt16 (h4 match1);
                          Sec.lma := parseInt16 (h5 match1);
                          Sec.fileOffset := parseInt16 (h6 match1);
                          Sec.align := 2 ^ parseInt10 (h7 match1);
                          Sec.flags := flags |} :: sections)
          end
      | None => readSections rest
      end
  end.

(** [getSections()], given the outcome of running objdump with
    [--section-headers]; it returns what it leaves in [this.sections]. *)
Definition getSections (objdump : SpawnSyncReturns) : completion (list SectionRecord) :=
  if bool_decide (status objdump ≠ Some 0) then Throws ObjdumpFailed
  else readSections (splitLF (removeCR (stdout objdump))).

(** ** Decoding the symbols: [getSymbols] *)

Definition TYPE_MAP : gmap ascii SymbolType.t :=
  {[ "F"%char := SymbolType.Function;
     "f"%char := SymbolType.File;
     "O"%char := SymbolType.Object;
     " "%char := SymbolType.Normal ]}.

Definition SCOPE_MAP : gmap ascii SymbolScope.t :=
  {[ "l"%char := SymbolScope.Local;
     "g"%char := SymbolScope.Global;
     " "%char := SymbolScope.Neither;
     "!"%char := SymbolScope.Both ]}.

(** [!currentFile]: [null] and the empty string are falsy. *)
Definition isFalsy (currentFile : option string) : bool :=
  match currentFile with
  | None => true
  | Some s => bool_decide (s = "")
  end.

(** What the loop of [getSymbols] carries from line to line. *)
Record ScanState := {
  currentFile : option string;
  pushed : list Sym.t   (* this.symbols *)
}.

(** The body of the loop for a line that matched. The two table lookups fall
    back on [Normal] and [Neither] for a key that is absent; the regular
    expression admits no such key ([matchSymbol_keys_defined]). *)
Definition decodeMatch (sections : list SectionRecord) (st : ScanState)
    (m : SymbolMatch) : completion ScanState :=
  let currentFile :=
    if bool_decide (m7 m = "d"%char) && bool_decide (m8 m = "f"%char)
    then Some (trim (m11 m)) else currentFile st in
  let type := default SymbolType.Normal (TYPE_MAP !! m8 m) in
  let scope := default SymbolScope.Neither (SCOPE_MAP !! m2 m) in
  let name := trim (m11 m) in
  let '(name, hidden) :=
    if startsWith name ".hidden" then (trim (substringFrom 7 name), true)
    else (name, false) in
  (* fix for LTO *)
  let scope :=
    if bool_decide (scope = SymbolScope.Local)
       && (isFalsy currentFile || bool_decide (currentFile = Some "<artificial>"))
    then SymbolScope.Global else scope in
  let sectionName := trim (m9 m) in
  let section := find (λ s, Sec.name s = sectionName) sections in
  if bool_decide (sectionName ≠ "*ABS*") && bool_decide (section = None)
  then Throws (SectionNotFound sectionName name)
  else Returns {|
    currentFile := currentFile;
    pushed := pushed st ++ [ {|
      Sym.address := parseInt16 (m1 m) - from_option Sec.lma 0 section;
      Sym.base := 0;
      Sym.type := type;
      Sym.scope := scope;
      Sym.section := sectionName;
      Sym.size := parseInt16 (m10 m);
      Sym.name := name;
      Sym.lines := None;
      Sym.file := if bool_decide (scope = SymbolScope.Local) then currentFile else None;
      Sym.hidden := hidden |} ] |}.

(** The body of the loop. *)
Definition decodeLine (sections : list SectionRecord) (st : ScanState)
    (line : string) : completion ScanState :=
  match matchSymbol line with
  | Some m => decodeMatch sections st m
  | None => Returns st
  end.

(** [for (const line of lines) ...] *)
Fixpoint decodeLines (sections : list SectionRecord) (st : ScanState)
    (lines : list string) : completion ScanState :=
  match lines with
  | [] => Returns st
  | line :: rest =>
      do st' <- decodeLine sections st line;
      decodeLines sections st' rest
  end.

(** [getSymbols()], given [this.sections] and the outcome of running objdump
    with [--syms --demangle]; it returns what it leaves in [this.symbols]. *)
Definition getSymbols (sections : list SectionRecord) (objdump : SpawnSyncReturns)
    : completion (list Sym.t) :=
  if bool_decide (length sections = 0%nat) then Throws SectionsNotLoaded
  else if bool_decide (status objdump ≠ Some 0) then Throws ObjdumpFailed
  else
    let lines := splitLF (removeCR (stdout objdump)) in
    do st <- decodeLines sections {| currentFile := None; pushed := [] |} lines;
    Returns (pushed st).

(** [new SymbolTable(objdumpPath, executable)], given the outcomes of the two
    runs of objdump. *)
Definition new_SymbolTable (headers syms : SpawnSyncReturns) : completion SymbolTable :=
  do sections <- getSections headers;
  do symbols <- getSymbols sections syms;
  Returns {| symbols := symbols; sections := sections |}.

(** ** Relocation *)

(** The body of the first loop of [relocate]: the first Section named like
    [relocatedSection], if there is one, takes its address. *)
Definition relocateSection (sections : list SectionRecord)
    (relocatedSection : SectionRecord) : list SectionRecord :=
  match list_find (λ s, Sec.name s = Sec.name relocatedSection) sections with
  | Some (i, section) =>
      <[i := Sec.with_address section (Sec.address relocatedSection)]> sections
  | None => sections
  end.

(** The loop over the symbols that ends both relocation methods, for one
    symbol and for all. *)
Definition updateBase (sections : list SectionRecord) (symbol : Sym.t) : Sym.t :=
  match find (λ s, Sec.name s = Sym.section symbol) sections with
  | Some section => Sym.with_base symbol (Sec.address section)
  | None => symbol
  end.

Definition updateBases (sections : list SectionRecord) (symbols : list Sym.t)
    : list Sym.t :=
  updateBase sections <$> symbols.

(** [relocate(relocatedSections)]; only the [name] and the [address] of each
    element of the argument are read. *)
Definition relocate (relocatedSections : list SectionRecord) (t : SymbolTable)
    : SymbolTable :=
  let sections := fold_left relocateSection relocatedSections (sections t) in
  {| symbols := updateBases sections (symbols t); sections := sections |}.

(** The test that selects the sections a load moves; the source notes that
    it has to match the one of gdb's remote.c. *)
Definition isLoaded {A} (section : Sec.t A) : bool :=
  bool_decide (is_Some (find (λ v, v = "ALLOC") (Sec.flags section)))
  && bool_decide (Sec.size section > 0).

(** [relocateWithOffset(loadOffset)] *)
Definition relocateWithOffset (loadOffset : Z) (t : SymbolTable) : SymbolTable :=
  let sections :=
    (λ section,
       if isLoaded section
       then Sec.with_address section (Sec.vma section + loadOffset)
       else section) <$> sections t in
  {| symbols := updateBases sections (symbols t); sections := sections |}.

(** ** The relocated-section snapshot: [getRelocatedSections] *)

(** The body of the loop, on the pair of the local [sections] and [count].
    [relocatedBases !! count] is the read [relocatedBases[count]] of the
    typed array: [None] stands for the [undefined] of a read past its end. *)
Definition snapshotStep (relocatedBases : list Z)
    (acc : list (Sec.t (option Z)) * nat) (section : SectionRecord)
    : list (Sec.t (option Z)) * nat :=
  let '(out, count) := acc in
  if isLoaded section
  then (out ++ [Sec.with_address section (relocatedBases !! count)], S count)
  else (out ++ [Sec.with_address section (Some (Sec.vma section))], count).

Definition getRelocatedSections (relocatedBases : list Z) (t : SymbolTable)
    : completion (list (Sec.t (option Z))) :=
  let '(out, count) := fold_left (snapshotStep relocatedBases) (sections t) ([], 0%nat) in
  if bool_decide (count ≠ length relocatedBases)
  then Throws (SectionsMismatch (length relocatedBases) count)
  else Returns out.

(** ** Queries *)

(** The address the filter of [getFunctionAtAddress] compares. *)
Definition effectiveAddress (relocated : bool) (s : Sym.t) : Z :=
  let symAddress := Sym.address s in
  if relocated then symAddress + Sym.base s else symAddress.

(** [getFunctionAtAddress(address, relocated)]; [None] is [null]. *)
Definition getFunctionAtAddress (address : Z) (relocated : bool) (t : SymbolTable)
    : option Sym.t :=
  let matches :=
    filter (λ s, let symAddress := effectiveAddress relocated s in
                 Sym.type s = SymbolType.Function
                 ∧ symAddress ≤ address
                 ∧ symAddress + Sym.size s > address) (symbols t) in
  head matches.

(** [s.file === file], between the [string | null] of a symbol and the
    optional parameter of [getFunctionByName], a [string] or, when it is
    left out, [undefined]: [null === undefined] is false. *)
Definition sameFile (stored : option string) (file : option string) : Prop :=
  match stored, file with
  | Some a, Some b => a = b
  | _, _ => False
  end.

#[global] Instance sameFile_dec stored file : Decision (sameFile stored file).
Proof. destruct stored, file; simpl; apply _. Defined.

(** [getFunctionByName(name, file?)] *)
Definition getFunctionByName (name : string) (file : option string) (t : SymbolTable)
    : option Sym.t :=
  (* Try to find static function first *)
  let matches :=
    filter (λ s, Sym.type s = SymbolType.Function
                 ∧ Sym.scope s = SymbolScope.Local
                 ∧ Sym.name s = name
                 ∧ sameFile (Sym.file s) file) (symbols t) in
  if bool_decide (length matches ≠ 0%nat) then head matches
  else
    (* Fall back to global scope *)
    let matches :=
      filter (λ s, Sym.type s = SymbolType.Function
                   ∧ Sym.scope s ≠ SymbolScope.Local
                   ∧ Sym.name s = name) (symbols t) in
    if bool_decide (length matches ≠ 0%nat) then head matches else None.

(** [getFunctionSymbols()] *)
Definition getFunctionSymbols (t : SymbolTable) : list Sym.t :=
  filter (λ s, Sym.type s = SymbolType.Function) (symbols t).

(** [getGlobalVariables()] *)
Definition getGlobalVariables (t : SymbolTable) : list Sym.t :=
  let matches :=
    filter (λ s, Sym.type s = SymbolType.Object
                 ∧ Sym.scope s = SymbolScope.Global) (symbols t) in
  matches.

(** [getSymbolVariables()]; [s.name] as a condition holds of a string that is
    not empty. *)
Definition getSymbolVariables (t : SymbolTable) : list Sym.t :=
  let matches :=
    filter (λ s, Sym.type s = SymbolType.Normal
                 ∧ Sym.size s = 0
                 ∧ Sym.name s ≠ ""
                 ∧ Sym.base s > 0) (symbols t) in
  matches.

(** [getConstVariables()] *)
Definition getConstVariables (t : SymbolTable) : list Sym.t :=
  let matches :=
    filter (λ s, Sym.type s = SymbolType.Normal
                 ∧ Sym.size s = 0
                 ∧ Sym.scope s = SymbolScope.Local
                 ∧ Sym.name s ≠ ""
                 ∧ startsWith (Sym.name s) "." = false
                 ∧ Sym.base s = 0) (symbols t) in
  matches.

(** [getStaticVariables(file)]; here [file] is not optional. *)
Definition getStaticVariables (file : string) (t : SymbolTable) : list Sym.t :=
  filter (λ s, Sym.type s = SymbolType.Object
               ∧ Sym.scope s = SymbolScope.Local
               ∧ sameFile (Sym.file s) (Some file)) (symbols t).

(** ** Notions used by the statements *)

(** [currentFile] as the rest of the loop body reads it for a matched line:
    after the first statement of the body, which sets it when the line is a
    compile-unit marker. *)
Definition currentFileAt (st : ScanState) (m : SymbolMatch) : option string :=
  if bool_decide (m7 m = "d"%char) && bool_decide (m8 m = "f"%char)
  then Some (trim (m11 m)) else currentFile st.

(** The name of the symbol of a matched line, as the error message and the
    pushed record have it. *)
Definition symbolName (m : SymbolMatch) : string :=
  let name := trim (m11 m) in
  if startsWith name ".hidden" then trim (substringFrom 7 name) else name.

Definition sectionNameOf (m : SymbolMatch) : string := trim (m9 m).

(** A matched line names a section that is neither the sentinel nor in the
    table. *)
Definition unknownSection (sections : list SectionRecord) (m : SymbolMatch) : Prop :=
  sectionNameOf m ≠ "*ABS*" ∧ sectionNameOf m ∉ Sec.name <$> sections.

#[global] Instance unknownSection_dec sections m : Decision (unknownSection sections m).
Proof. unfold unknownSection. apply _. Defined.

(** A symbol is resolved when its section is the sentinel or names a Section
    of the table. *)
Definition resolved (sections : list SectionRecord) (s : Sym.t) : Prop :=
  Sym.section s = "*ABS*" ∨ Sym.section s ∈ Sec.name <$> sections.

(** The Section that owns a symbol: the one the loops over the symbols join
    it with. *)
Definition owningSection (t : SymbolTable) (s : Sym.t) : option SectionRecord :=
  find (λ section, Sec.name section = Sym.section s) (sections t).

(** The tables a program can hold: built by the constructor, then relocated
    any number of times by either method. *)
Inductive reachable : SymbolTable → Prop :=
  | reachable_new headers syms t :
      new_SymbolTable headers syms = Returns t → reachable t
  | reachable_relocate rs t :
      reachable t → reachable (relocate rs t)
  | reachable_relocateWithOffset off t :
      reachable t → reachable (relocateWithOffset off t).

(** The address that the first loop of [relocate] leaves in the first
    Section named [n], which held [a]: that of the last element of the
    argument named [n], if there is one. *)
Definition lastAddress (n : string) (rs : list SectionRecord) (a : Z) : Z :=
  fold_left (λ a r, if decide (Sec.name r = n) then Sec.address r else a) rs a.

(** The Sections that a load moves: flagged ALLOC, of non-zero size. *)
Definition loaded (secs : list SectionRecord) : list SectionRecord :=
  filter (λ s, isLoaded s = true) secs.

(** The records that the loop of [getRelocatedSections] pushes for the
    Sections [secs] when it reaches them with [count]. *)
Fixpoint snapshotFrom (relocatedBases : list Z) (count : nat)
    (secs : list SectionRecord) : list (Sec.t (option Z)) :=
  match secs with
  | [] => []
  | section :: rest =>
      if isLoaded section
      then Sec.with_address section (relocatedBases !! count)
           :: snapshotFrom relocatedBases (S count) rest
      else Sec.with_address section (Some (Sec.vma section))
           :: snapshotFrom relocatedBases count rest
  end.

(** The two filters of [getFunctionByName]. *)
Definition isLocalFunction (name : string) (file : option string) (s : Sym.t) : Prop :=
  Sym.type s = SymbolType.Function
  ∧ Sym.scope s = SymbolScope.Local
  ∧ Sym.name s = name
  ∧ sameFile (Sym.file s) file.

Definition isOtherFunction (name : string) (s : Sym.t) : Prop :=
  Sym.type s = SymbolType.Function
  ∧ Sym.scope s ≠ SymbolScope.Local
  ∧ Sym.name s = name.

#[global] Instance isLocalFunction_dec name file s : Decision (isLocalFunction name file s).
Proof. unfold isLocalFunction. apply _. Defined.

#[global] Instance isOtherFunction_dec name s : Decision (isOtherFunction name s).
Proof. unfold isOtherFunction. apply _. Defined.

(** The filter of [getFunctionAtAddress]. *)
Definition containsAddress (address : Z) (relocated : bool) (s : Sym.t) : Prop :=
  let symAddress := effectiveAddress relocated s in
  Sym.type s = SymbolType.Function
  ∧ symAddress ≤ address
  ∧ symAddress + Sym.size s > address.

(** ** Notions used by the further properties *)

(** A string does not begin with white space. *)
Definition trimmedStart (s : string) : Prop :=
  match s with
  | String c _ => isWhiteSpace c = false
  | EmptyString => True
  end.

(** The Section that the loop of [getSections] pushes for a header line and
    the line after it. *)
Definition sectionOf (match1 : SectionMatch) (next : string) : SectionRecord :=
  {| Sec.name := h2 match1;
     Sec.address := 0;
     Sec.size := parseInt16 (h3 match1);
     Sec.vma := parseInt16 (h4 match1);
     Sec.lma := parseInt16 (h5 match1);
     Sec.fileOffset := parseInt16 (h6 match1);
     Sec.align := 2 ^ parseInt10 (h7 match1);
     Sec.flags := splitCommaSpace (trim next) |}.

(** What a Symbol owes to the line it was decoded from: its section and name
    are those of the line; its size is not negative, and is the number that
    the digits of the line denote when that number is below 2^53, where a
    JavaScript number holds it exactly; its address is the raw address of the
    line less the lma of the first Section of that name, or less 0 when the
    table has none. *)
Definition decodes (secs : list SectionRecord) (m : SymbolMatch) (s : Sym.t) : Prop :=
  Sym.section s = sectionNameOf m
  ∧ Sym.name s = symbolName m
  ∧ 0 ≤ Sym.size s
  ∧ (parseInt16 (m10 m) < 2 ^ 53 → Sym.size s = parseInt16 (m10 m))
  ∧ Sym.address s
    + from_option Sec.lma 0 (find (λ x, Sec.name x = Sym.section s) secs)
    = parseInt16 (m1 m).

(** A Symbol has a file exactly when its scope is Local, and then the file is
    neither empty nor the marker of link-time optimization. *)
Definition wellFiled (s : Sym.t) : Prop :=
  match Sym.file s with
  | Some f => Sym.scope s = SymbolScope.Local ∧ f ≠ "" ∧ f ≠ "<artificial>"
  | None => Sym.scope s ≠ SymbolScope.Local
  end.

(** A Section after the first loop of [relocateWithOffset]. *)
Definition moved (loadOffset : Z) (section : SectionRecord) : SectionRecord :=
  if isLoaded section
  then Sec.with_address section (Sec.vma section + loadOffset)
  else section.

(** The record of a snapshot as a Section, when its address is defined. *)
Definition definite (o : Sec.t (option Z)) : SectionRecord :=
  Sec.with_address o (default 0 (Sec.address o)).

(** The name on a line, when the line is a compile-unit marker. *)
Definition markerOf (line : string) : option string :=
  m ← matchSymbol line;
  if bool_decide (m7 m = "d"%char) && bool_decide (m8 m = "f"%char)
  then Some (trim (m11 m)) else None.

(** The name on the last compile-unit marker of a report, if it has one. *)
Definition lastMarker (lines : list string) : option string :=
  last (omap markerOf lines).

(** ** The objects behind the table

    The embedding above identifies a Section with its fields. Whether a
    record is a copy or a reference is a matter of object identity, so
    [getRelocatedSections] is given a second time here, over a heap of
    objects addressed by references; [this.sections] and [this.symbols] are
    the lists of the references of their elements. The [flags] array of a
    Section is shared by a spread copy; no method writes to it, and it stays
    a value. *)
Module Store.

Definition ref := nat.

Record State := {
  sectionObjects : gmap ref (Sec.t (option Z));
  symbolObjects : gmap ref Sym.t;
  this_sections : list ref;
  this_symbols : list ref
}.

(** The body of the loop: read the object of [section], allocate the object
    of the literal [{ ...section, address: ... }] at a fresh reference, push
    that reference. [None] is a read through a dangling reference, which no
    JavaScript program can hold. *)
Definition snapshotStep (relocatedBases : list Z)
    (acc : option (gmap ref (Sec.t (option Z)) * list ref * nat)) (r : ref)
    : option (gmap ref (Sec.t (option Z)) * list ref * nat) :=
  '(heap, out, count) ← acc;
  section ← heap !! r;
  let new := fresh (dom heap) in
  if isLoaded section
  then Some (<[new := Sec.with_address section (relocatedBases !! count)]> heap,
             out ++ [new], S count)
  else Some (<[new := Sec.with_address section (Some (Sec.vma section))]> heap,
             out ++ [new], count).

Definition getRelocatedSections (relocatedBases : list Z) (σ : State)
    : option (State * completion (list ref)) :=
  '(heap, out, count) ←
    fold_left (snapshotStep relocatedBases) (this_sections σ)
              (Some (sectionObjects σ, [], 0%nat));
  Some ({| sectionObjects := heap;
           symbolObjects := symbolObjects σ;
           this_sections := this_sections σ;
           this_symbols := this_symbols σ |},
        if bool_decide (count ≠ length relocatedBases)
        then Throws (SectionsMismatch (length relocatedBases) count)
        else Returns out).

(** The object of a stored Section: its address slot holds a number. *)
Definition stored (s : SectionRecord) : Sec.t (option Z) :=
  Sec.with_address s (Some (Sec.address s)).

(** The heap [σ] holds the table [t]: the references of [this.sections] and
    [this.symbols] lead to the records of [t], in order. *)
Definition represents (σ : State) (t : SymbolTable) : Prop :=
  Forall2 (λ r s, sectionObjects σ !! r = Some (stored s)) (this_sections σ) (sections t)
  ∧ Forall2 (λ r s, symbolObjects σ !! r = Some s) (this_symbols σ) (symbols t).

End Store.

(** ** Data of the scenarios *)

Definition LF : string := String (Ascii.ascii_of_nat 10) EmptyString.

(** The section of the scenario; the spec leaves [fileOffset] and [align]
    open. *)
Definition text_section (fileOffset align : Z) : SectionRecord :=
  {| Sec.name := ".text"; Sec.address := 0; Sec.size := 0x100;
     Sec.vma := 0x1000; Sec.lma := 0x1000;
     Sec.fileOffset := fileOffset; Sec.align := align;
     Sec.flags := ["ALLOC"] |}.

Definition data_section : SectionRecord :=
  {| Sec.name := ".data"; Sec.address := 0; Sec.size := 0x40;
     Sec.vma := 0x2000; Sec.lma := 0x2000; Sec.fileOffset := 0x1100; Sec.align := 4;
     Sec.flags := ["CONTENTS"; "ALLOC"; "LOAD"; "DATA"] |}.

Definition comment_section : SectionRecord :=
  {| Sec.name := ".comment"; Sec.address := 0; Sec.size := 0x12;
     Sec.vma := 0; Sec.lma := 0; Sec.fileOffset := 0x1140; Sec.align := 1;
     Sec.flags := ["CONTENTS"; "READONLY"] |}.

(** The Section that [getSections] reads from [headers_abs]. *)
Definition abs_section : SectionRecord :=
  {| Sec.name := "*ABS*"; Sec.address := 0; Sec.size := 4;
     Sec.vma := 0; Sec.lma := 0; Sec.fileOffset := 0x34; Sec.align := 2;
     Sec.flags := ["CONTENTS"; "ALLOC"; "LOAD"; "DATA"] |}.

(** What objdump prints for the section headers of the scenario. *)
Definition headers_foo : SpawnSyncReturns :=
  {| status := Some 0;
     stdout :=
       LF +:+ "a.elf:     file format elf32-m68k" +:+ LF +:+ LF
       +:+ "Sections:" +:+ LF
       +:+ "Idx Name          Size      VMA       LMA       File off  Algn" +:+ LF
       +:+ "  0 .text         00000100  00001000  00001000  00000034  2**1" +:+ LF
       +:+ "                  ALLOC" +:+ LF |}.

(** The same for a file whose only section was given the name of the
    sentinel. *)
Definition headers_abs : SpawnSyncReturns :=
  {| status := Some 0;
     stdout :=
       LF +:+ "a.elf:     file format elf32-m68k" +:+ LF +:+ LF
       +:+ "Sections:" +:+ LF
       +:+ "Idx Name          Size      VMA       LMA       File off  Algn" +:+ LF
       +:+ "  0 *ABS*         00000004  00000000  00000000  00000034  2**1" +:+ LF
       +:+ "                  CONTENTS, ALLOC, LOAD, DATA" +:+ LF |}.

Definition foo_line : string := "00001050 g     F .text" +:+ TAB +:+ "00000020 foo".

(** A symbol that lives in a section the table does not have. *)
Definition bar_line : string := "00002000 g     O .data" +:+ TAB +:+ "00000004 bar".

(** What objdump prints for a link-time-optimized unit: a compile-unit
    marker named [<artificial>] and a local function after it. *)
Definition artificial_line : string :=
  "00000000 l    df *ABS*" +:+ TAB +:+ "00000000 <artificial>".
Definition local_line : string := "00001050 l     F .text" +:+ TAB +:+ "00000020 foo".

Definition objdump_foo : SpawnSyncReturns :=
  {| status := Some 0;
     stdout := "SYMBOL TABLE:" +:+ LF +:+ foo_line +:+ LF |}.

Definition objdump_foo_bar : SpawnSyncReturns :=
  {| status := Some 0;
     stdout := "SYMBOL TABLE:" +:+ LF +:+ foo_line +:+ LF +:+ bar_line +:+ LF |}.

Definition objdump_lto : SpawnSyncReturns :=
  {| status := Some 0;
     stdout := "SYMBOL TABLE:" +:+ LF +:+ artificial_line +:+ LF +:+ local_line +:+ LF |}.

Definition objdump_abs : SpawnSyncReturns :=
  {| status := Some 0;
     stdout := "SYMBOL TABLE:" +:+ LF
               +:+ "00000010 g       *ABS*" +:+ TAB +:+ "00000000 limit" +:+ LF |}.

Definition foo : Sym.t :=
  {| Sym.address := 0x50; Sym.base := 0;
     Sym.type := SymbolType.Function; Sym.scope := SymbolScope.Global;
     Sym.section := ".text"; Sym.size := 0x20; Sym.name := "foo";
     Sym.lines := None; Sym.file := None; Sym.hidden := false |}.

Definition limit : Sym.t :=
  {| Sym.address := 0x10; Sym.base := 0;
     Sym.type := SymbolType.Normal; Sym.scope := SymbolScope.Global;
     Sym.section := "*ABS*"; Sym.size := 0; Sym.name := "limit";
     Sym.lines := None; Sym.file := None; Sym.hidden := false |}.

(** A function of size 0, as objdump lists an assembly label declared a
    function without a size. *)
Definition stub : Sym.t :=
  {| Sym.address := 0x50; Sym.base := 0;
     Sym.type := SymbolType.Function; Sym.scope := SymbolScope.Global;
     Sym.section := ".text"; Sym.size := 0; Sym.name := "stub";
     Sym.lines := None; Sym.file := None; Sym.hidden := false |}.

(** The two functions named [helper] of the scenario; the fields that the
    query does not read are left open. *)
Definition helper_local (address size : Z) : Sym.t :=
  {| Sym.address := address; Sym.base := 0;
     Sym.type := SymbolType.Function; Sym.scope := SymbolScope.Local;
     Sym.section := ".text"; Sym.size := size; Sym.name := "helper";
     Sym.lines := None; Sym.file := Some "a.c"; Sym.hidden := false |}.

Definition helper_global (address size : Z) : Sym.t :=
  {| Sym.address := address; Sym.base := 0;
     Sym.type := SymbolType.Function; Sym.scope := SymbolScope.Global;
     Sym.section := ".text"; Sym.size := size; Sym.name := "helper";
     Sym.lines := None; Sym.file := None; Sym.hidden := false |}.

Definition heap_of_scenario : Store.State :=
  {| Store.sectionObjects :=
       {[ 0%nat := Store.stored (text_section 0 2);
          1%nat := Store.stored comment_section ]};
     Store.symbolObjects := {[ 0%nat := foo ]};
     Store.this_sections := [0%nat; 1%nat];
     Store.this_symbols := [0%nat] |}.

(** A report cut after the header of [.text]. *)
Definition headers_cut : SpawnSyncReturns :=
  {| status := Some 0;
     stdout := "Sections:" +:+ LF
               +:+ "  0 .text         00000100  00001000  00001000  00000034  2**1" |}.

(** The table that the constructor builds from the report of a
    link-time-optimized unit. *)
Definition lto_table : SymbolTable :=
  {| symbols :=
       [Sym.mk 0 0 SymbolType.File SymbolScope.Global "*ABS*" 0 "<artificial>"
          None None false;
        foo];
     sections := [text_section 0x34 2] |}.

(** A label of the loader, as [getSymbolVariables] looks for it, after
    relocation. *)
Definition label_symbol : Sym.t :=
  {| Sym.address := 0x10; Sym.base := 0x9000;
     Sym.type := SymbolType.Normal; Sym.scope := SymbolScope.Global;
     Sym.section := ".text"; Sym.size := 0; Sym.name := "_start";
     Sym.lines := None; Sym.file := None; Sym.hidden := false |}.

(** A report with two compile units. *)
Definition objdump_units : SpawnSyncReturns :=
  {| status := Some 0;
     stdout := "SYMBOL TABLE:" +:+ LF
               +:+ "00000000 l    df *ABS*" +:+ TAB +:+ "00000000 a.c" +:+ LF
               +:+ "00001040 l     F .text" +:+ TAB +:+ "00000010 helper" +:+ LF
               +:+ "00000000 l    df *ABS*" +:+ TAB +:+ "00000000 b.c" +:+ LF
               +:+ "00001050 l     F .text" +:+ TAB +:+ "00000020 foo" +:+ LF |}.

(** * Properties *)

(** ** The readers on sample reports *)

Example getSections_headers_foo :
  getSections headers_foo = Returns [text_section 0x34 2].
Proof. reflexivity. Qed.

Example getSections_headers_abs :
  getSections headers_abs = Returns [abs_section].
Proof. reflexivity. Qed.

Example getSections_flags_line_missing :
  getSections
    {| status := Some 0;
       stdout := "  0 .text         00000100  00001000  00001000  00000034  2**1" |}
  = Throws TypeError.
Proof. reflexivity. Qed.

Example getSymbols_objdump_abs :
  getSymbols [abs_section] objdump_abs = Returns [limit].
Proof. reflexivity. Qed.

Example matchSymbol_objdump_line :
  matchSymbol ("00001050 g     F .text" +:+ TAB +:+ "00000020 foo")
  = Some {| m1 := "00001050"; m2 := "g"; m3 := " "; m4 := " "; m5 := " ";
            m6 := " "; m7 := " "; m8 := "F"; m9 := ".text";
            m10 := "00000020"; m11 := "foo" |}.
Proof. reflexivity. Qed.

Example matchSymbol_header_line :
  matchSymbol "SYMBOL TABLE:" = None.
Proof. reflexivity. Qed.

(** ** [find] *)

Section find.
Context {A : Type} (P : A → Prop) `{∀ x, Decision (P x)}.

Lemma find_nil : find P [] = None.
Proof. reflexivity. Qed.

Lemma find_cons x l :
  find P (x :: l) = if decide (P x) then Some x else find P l.
Proof.
  unfold find; simpl. case_decide; [done|].
  by destruct (list_find P l) as [[? ?]|].
Qed.

Lemma find_Some l x : find P l = Some x → x ∈ l ∧ P x.
Proof.
  induction l as [|y l IH]; [done|].
  rewrite find_cons. case_decide.
  - intros [= ->]. split; [left | done].
  - intros [? ?]%IH. split; [by right | done].
Qed.

Lemma find_None l : find P l = None ↔ ∀ x, x ∈ l → ¬ P x.
Proof.
  unfold find. rewrite fmap_None, list_find_None, Forall_forall. done.
Qed.

Lemma find_is_Some l : is_Some (find P l) ↔ ∃ x, x ∈ l ∧ P x.
Proof.
  split.
  - intros [x Hx]. exists x. by apply find_Some.
  - intros (x & Hin & HP). destruct (find P l) eqn:E; [done|].
    by destruct ((proj1 (find_None l)) E x Hin).
Qed.

(** [filter(p)[0]] is [find(p)]. *)
Lemma head_filter l : head (filter P l) = find P l.
Proof.
  induction l as [|y l IH]; [done|].
  rewrite filter_cons, find_cons. by case_decide.
Qed.
End find.

(** The Section that [find] selects for a name is decided by the names. *)
Lemma find_name_is_Some {A} (n : string) (l : list (Sec.t A)) :
  is_Some (find (λ s, Sec.name s = n) l) ↔ n ∈ Sec.name <$> l.
Proof.
  rewrite find_is_Some, list_elem_of_fmap. split.
  - intros (s & Hin & <-). by exists s.
  - intros (s & -> & Hin). by exists s.
Qed.

(** ** The decoder *)

(** The characters the expression admits as group 2 and group 8 are keys of
    the two tables. *)
Lemma oneOf_elem set s c r :
  Regex.oneOf set s = Some (c, r) → c ∈ String.list_ascii_of_string set.
Proof.
  unfold Regex.oneOf, Regex.one. destruct s as [|c' r']; [done|].
  case_bool_decide; [|done]. by intros [= <- _].
Qed.

Lemma matchSymbol_keys_defined line m :
  matchSymbol line = Some m →
  is_Some (SCOPE_MAP !! m2 m) ∧ is_Some (TYPE_MAP !! m8 m).
Proof.
  unfold matchSymbol. intros Hm.
  repeat match type of Hm with
  | (mbind _ ?o) = Some _ =>
      let E := fresh "E" in
      destruct o as [[? ?]|] eqn:E; simpl in Hm; [|discriminate]
  end.
  destruct (Regex.tail _); simpl in Hm; [|discriminate].
  injection Hm as <-. simpl.
  repeat match goal with
  | E : Regex.oneOf _ _ = Some _ |- _ => apply oneOf_elem in E; simpl in E
  end.
  split;
    repeat match goal with
    | E : _ ∈ _ :: _ |- _ => apply elem_of_cons in E as [->|E]; [by vm_compute; eexists|]
    | E : _ ∈ [] |- _ => by apply elem_of_nil in E
    end.
Qed.

Lemma decodeMatch_Throws sections st m :
  unknownSection sections m →
  decodeMatch sections st m
  = Throws (SectionNotFound (sectionNameOf m) (symbolName m)).
Proof.
  intros [Habs Hnot]. unfold decodeMatch, symbolName, sectionNameOf in *.
  destruct (find _ sections) as [sec|] eqn:E.
  { exfalso. apply Hnot, find_name_is_Some. by rewrite E. }
  destruct (startsWith _ _);
    rewrite (bool_decide_eq_true_2 (_ ≠ "*ABS*")) by done;
    by rewrite (bool_decide_eq_true_2 (@None SectionRecord = None)).
Qed.

Lemma decodeMatch_Returns sections st m st' :
  decodeMatch sections st m = Returns st' →
  ¬ unknownSection sections m
  ∧ ∃ sym,
      st' = {| currentFile := currentFileAt st m; pushed := pushed st ++ [sym] |}
      ∧ Sym.section sym = sectionNameOf m
      ∧ Sym.name sym = symbolName m
      ∧ Sym.base sym = 0
      ∧ (SCOPE_MAP !! m2 m = Some SymbolScope.Local →
         currentFileAt st m = None ∨ currentFileAt st m = Some "<artificial>" →
         Sym.scope sym = SymbolScope.Global ∧ Sym.file sym = None).
Proof.
  unfold decodeMatch, unknownSection, symbolName, sectionNameOf, currentFileAt.
  set (cf := if _ && _ then _ else currentFile st).
  destruct (startsWith _ _);
    (case_match eqn:Hthrow; [done|]; intros [= <-]; split;
     [ apply andb_false_iff in Hthrow as [Hn|Hn];
       [ apply bool_decide_eq_false in Hn; by intros [? _]
       | apply bool_decide_eq_false in Hn; intros [_ Hnot]; apply Hnot;
         apply find_name_is_Some; by destruct (find _ sections) ]
     | eexists; split; [reflexivity|]; simpl; split_and!; try done;
       intros -> Hcf; simpl;
       assert (isFalsy cf || bool_decide (cf = Some "<artificial>") = true) as ->
         by (destruct Hcf as [Hcf|Hcf]; by rewrite Hcf);
       done ]).
Qed.

Lemma decodeMatch_cases sections st m :
  (unknownSection sections m
   ∧ decodeMatch sections st m
     = Throws (SectionNotFound (sectionNameOf m) (symbolName m)))
  ∨ (¬ unknownSection sections m ∧ ∃ st', decodeMatch sections st m = Returns st').
Proof.
  destruct (decide (unknownSection sections m)) as [Hu|Hk].
  - left. split; [done|]. by apply decodeMatch_Throws.
  - right. split; [done|].
    destruct (decodeMatch sections st m) as [st'|e] eqn:E; [by exists st'|].
    exfalso. apply Hk. clear Hk. revert E.
    unfold decodeMatch, unknownSection, sectionNameOf.
    destruct (startsWith _ _);
      (case_match eqn:Hthrow; [|done]; intros _;
       apply andb_true_iff in Hthrow as [Ha Hn];
       apply bool_decide_eq_true in Ha, Hn; split; [done|];
       rewrite <- find_name_is_Some, Hn; by intros [? ?]).
Qed.

Lemma decodeLines_app sections st l1 l2 :
  decodeLines sections st (l1 ++ l2)
  = do st' <- decodeLines sections st l1; decodeLines sections st' l2.
Proof.
  revert st. induction l1 as [|l l1 IH]; intros st; simpl; [done|].
  destruct (decodeLine sections st l); simpl; [apply IH | done].
Qed.

(** A run of the loop that completes only ever appends to [this.symbols],
    and what it appends is resolved and has base 0. *)
Lemma decodeLines_Returns sections st lines st' :
  decodeLines sections st lines = Returns st' →
  ∃ ext, pushed st' = pushed st ++ ext
         ∧ Forall (λ s, resolved sections s ∧ Sym.base s = 0) ext.
Proof.
  revert st. induction lines as [|l lines IH]; intros st; simpl.
  { intros [= <-]. exists []. by rewrite app_nil_r. }
  unfold decodeLine. destruct (matchSymbol l) as [m|]; simpl; [|apply IH].
  destruct (decodeMatch sections st m) as [st1|] eqn:E; simpl; [|done].
  apply decodeMatch_Returns in E as (Hk & sym & -> & Hsec & _ & Hbase & _).
  intros (ext & -> & Hext)%IH. simpl. exists (sym :: ext).
  split; [by rewrite <- app_assoc|]. constructor; [|done]. split; [|done].
  unfold resolved. rewrite Hsec.
  destruct (decide (sectionNameOf m = "*ABS*")) as [|Hne]; [by left|right].
  destruct (decide (sectionNameOf m ∈ Sec.name <$> sections)); [done|].
  by destruct Hk.
Qed.

(** When some line is unknown, the loop throws at the first such line. *)
Lemma decodeLines_Throws sections st lines :
  (∃ line m, line ∈ lines ∧ matchSymbol line = Some m ∧ unknownSection sections m) →
  ∃ pre line post m,
    lines = pre ++ line :: post
    ∧ matchSymbol line = Some m
    ∧ unknownSection sections m
    ∧ (∀ l k, l ∈ pre → matchSymbol l = Some k → ¬ unknownSection sections k)
    ∧ decodeLines sections st lines
      = Throws (SectionNotFound (sectionNameOf m) (symbolName m)).
Proof.
  revert st. induction lines as [|l lines IH]; intros st (line & m & Hin & Hm & Hu).
  { by apply elem_of_nil in Hin. }
  assert (Hrest : ∀ st1,
    decodeLine sections st l = Returns st1 →
    (∀ k, matchSymbol l = Some k → ¬ unknownSection sections k) →
    ∃ pre line post m,
      l :: lines = pre ++ line :: post
      ∧ matchSymbol line = Some m
      ∧ unknownSection sections m
      ∧ (∀ l k, l ∈ pre → matchSymbol l = Some k → ¬ unknownSection sections k)
      ∧ decodeLines sections st (l :: lines)
        = Throws (SectionNotFound (sectionNameOf m) (symbolName m))).
  { intros st1 E Hl. simpl. rewrite E. simpl.
    apply elem_of_cons in Hin as [->|Hin]; [by destruct (Hl m Hm)|].
    destruct (IH st1) as (pre & line' & post & m' & -> & ? & ? & Hpre & ?);
      [by exists line, m|].
    exists (l :: pre), line', post, m'. split_and!; try done.
    intros l0 k [->|?]%elem_of_cons; eauto. }
  destruct (matchSymbol l) as [k|] eqn:Hk.
  - destruct (decodeMatch_cases sections st k) as [[Huk E]|[Hkk [st1 E]]].
    + exists [], l, lines, k. split_and!; try done.
      * intros ? ? ?%elem_of_nil; done.
      * simpl. unfold decodeLine. by rewrite Hk, E.
    + apply (Hrest st1).
      * unfold decodeLine. by rewrite Hk.
      * by intros ? [= <-].
  - apply (Hrest st); [|done]. unfold decodeLine. by rewrite Hk.
Qed.

(** ** The two loops of [relocate] *)

(** [relocateSection] and [updateBase] unfolded along the list. *)
Lemma relocateSection_cons s sections r :
  relocateSection (s :: sections) r
  = if decide (Sec.name s = Sec.name r)
    then Sec.with_address s (Sec.address r) :: sections
    else s :: relocateSection sections r.
Proof.
  unfold relocateSection; simpl. case_decide; [done|].
  by destruct (list_find _ sections) as [[? ?]|].
Qed.

Lemma relocateSection_names sections r :
  Sec.name <$> relocateSection sections r = Sec.name <$> sections.
Proof.
  induction sections as [|s sections IH]; [done|].
  rewrite relocateSection_cons. case_decide; rewrite !fmap_cons; [done|].
  by rewrite IH.
Qed.

Lemma relocateSections_names rs sections :
  Sec.name <$> fold_left relocateSection rs sections = Sec.name <$> sections.
Proof.
  revert sections. induction rs as [|r rs IH]; intros sections; simpl; [done|].
  by rewrite IH, relocateSection_names.
Qed.

Lemma relocate_names rs t :
  Sec.name <$> sections (relocate rs t) = Sec.name <$> sections t.
Proof. apply relocateSections_names. Qed.

Lemma relocateWithOffset_names off t :
  Sec.name <$> sections (relocateWithOffset off t) = Sec.name <$> sections t.
Proof.
  simpl. rewrite <- list_fmap_compose. apply list_fmap_ext.
  intros i s _. simpl. by destruct (isLoaded s).
Qed.

Lemma updateBase_section sections s :
  Sym.section (updateBase sections s) = Sym.section s.
Proof. unfold updateBase. by destruct (find _ sections). Qed.

(** ** The claims about the decoder *)

(** C1. The end-to-end scenario: with the one section [.text] (vma and lma
    0x1000, size 0x100, flag ALLOC) and the one symbol line of raw address
    0x1050, scope Global, type Function, section [.text], size 0x20 and name
    [foo], construction yields the symbol [foo] with address 0x50 and base 0;
    after [relocateWithOffset(0x8000)] the address of [.text] is 0x9000, the
    base of [foo] is 0x9000, and [getFunctionAtAddress(0x9050, true)] returns
    [foo]. *)
Theorem C1_scenario (fileOffset align : Z) :
  let text := text_section fileOffset align in
  let t := {| symbols := [foo]; sections := [text] |} in
  let t' := relocateWithOffset 0x8000 t in
  getSymbols [text] objdump_foo = Returns [foo]
  ∧ new_SymbolTable headers_foo objdump_foo
    = Returns {| symbols := [foo]; sections := [text_section 0x34 2] |}
  ∧ Sym.address foo = 0x50 ∧ Sym.base foo = 0
  ∧ sections t' = [Sec.with_address text 0x9000]
  ∧ symbols t' = [Sym.with_base foo 0x9000]
  ∧ getFunctionAtAddress 0x9050 true t' = Some (Sym.with_base foo 0x9000).
Proof. repeat split. Qed.

(** What [getSymbols] does once past its two guards. *)
Lemma getSymbols_decoding secs objdump :
  secs ≠ [] → status objdump = Some 0 →
  getSymbols secs objdump
  = do st <- decodeLines secs {| currentFile := None; pushed := [] |}
               (splitLF (removeCR (stdout objdump)));
    Returns (pushed st).
Proof.
  intros Hne Hst. unfold getSymbols.
  rewrite bool_decide_eq_false_2 by (by destruct secs).
  by rewrite bool_decide_eq_false_2 by (by intros []).
Qed.

Lemma getSymbols_Returns secs objdump syms :
  getSymbols secs objdump = Returns syms →
  ∃ st,
    decodeLines secs {| currentFile := None; pushed := [] |}
      (splitLF (removeCR (stdout objdump))) = Returns st
    ∧ syms = pushed st.
Proof.
  unfold getSymbols. repeat case_bool_decide; try done.
  destruct (decodeLines _ _ _) as [st|] eqn:E; simpl; [|done].
  intros [= <-]. by exists st.
Qed.

Lemma getSymbols_resolved secs objdump syms :
  getSymbols secs objdump = Returns syms →
  ∀ s, s ∈ syms → resolved secs s.
Proof.
  intros (st & E & ->)%getSymbols_Returns.
  apply decodeLines_Returns in E as (ext & -> & Hext). simpl.
  intros s Hs. rewrite Forall_forall in Hext. by apply Hext.
Qed.

(** The constructor returns the table of what its two steps return. *)
Lemma new_SymbolTable_Returns headers syms t :
  new_SymbolTable headers syms = Returns t ↔
  getSections headers = Returns (sections t)
  ∧ getSymbols (sections t) syms = Returns (symbols t).
Proof.
  unfold new_SymbolTable. destruct (getSections headers) as [secs|]; simpl.
  - destruct (getSymbols secs syms) as [symbols|] eqn:E; simpl.
    + split.
      * intros [= <-]. simpl. by rewrite E.
      * destruct t as [symbols' secs']. simpl.
        intros [[= ->] Hs]. rewrite E in Hs. by injection Hs as ->.
    + split; [done|]. intros [[= ->] Hs]. by rewrite E in Hs.
  - split; [done|]. by intros [? _].
Qed.

(** C5. An unknown section is fatal. When the decoding loop runs (the table
    has sections and objdump exited with status 0) and some matched line names
    a section that is neither the sentinel nor in the table, [getSymbols], and
    with it the constructor, throws the "Section ... not found. Symbol: ..."
    error of the first such line, with the section and the symbol name of that
    very line. Hence in every table that the constructor returns, the section
    of each symbol is the sentinel or the name of a Section of the table. *)
Theorem C5_unknown_section_is_fatal headers secs objdump :
  getSections headers = Returns secs →
  let lines := splitLF (removeCR (stdout objdump)) in
  (secs ≠ [] → status objdump = Some 0 →
   ∀ line m,
     line ∈ lines → matchSymbol line = Some m → unknownSection secs m →
     ∃ pre line' post m',
       lines = pre ++ line' :: post
       ∧ matchSymbol line' = Some m'
       ∧ unknownSection secs m'
       ∧ (∀ l k, l ∈ pre → matchSymbol l = Some k → ¬ unknownSection secs k)
       ∧ getSymbols secs objdump
         = Throws (SectionNotFound (sectionNameOf m') (symbolName m'))
       ∧ new_SymbolTable headers objdump
         = Throws (SectionNotFound (sectionNameOf m') (symbolName m')))
  ∧ (∀ t, new_SymbolTable headers objdump = Returns t →
     ∀ s, s ∈ symbols t →
       Sym.section s = "*ABS*" ∨ Sym.section s ∈ Sec.name <$> sections t).
Proof.
  intros Hsecs lines. split.
  - intros Hne Hst line m Hin Hm Hu.
    destruct (decodeLines_Throws secs {| currentFile := None; pushed := [] |} lines)
      as (pre & line' & post & m' & ? & ? & ? & ? & E); [by exists line, m|].
    assert (Hthrow : getSymbols secs objdump
                     = Throws (SectionNotFound (sectionNameOf m') (symbolName m'))).
    { rewrite getSymbols_decoding by done. fold lines. by rewrite E. }
    exists pre, line', post, m'. split_and!; try done.
    unfold new_SymbolTable. rewrite Hsecs. simpl. by rewrite Hthrow.
  - intros t [_ Hsyms]%new_SymbolTable_Returns.
    exact (getSymbols_resolved _ _ _ Hsyms).
Qed.

(** C5 on the report that lists [bar] in [.data], for a table that has only
    [.text], and on the report of the scenario. *)
Lemma C5_unknown_section_is_fatal_witness :
  (∃ pre line' post m',
     splitLF (removeCR (stdout objdump_foo_bar)) = pre ++ line' :: post
     ∧ matchSymbol line' = Some m'
     ∧ unknownSection [text_section 0x34 2] m'
     ∧ (∀ l k, l ∈ pre → matchSymbol l = Some k → ¬ unknownSection [text_section 0x34 2] k)
     ∧ getSymbols [text_section 0x34 2] objdump_foo_bar
       = Throws (SectionNotFound (sectionNameOf m') (symbolName m'))
     ∧ new_SymbolTable headers_foo objdump_foo_bar
       = Throws (SectionNotFound (sectionNameOf m') (symbolName m')))
  ∧ (∀ s, s ∈ [foo] → Sym.section s = "*ABS*" ∨ Sym.section s ∈ [".text"]).
Proof.
  split.
  - refine (proj1 (C5_unknown_section_is_fatal headers_foo [text_section 0x34 2]
                     objdump_foo_bar eq_refl)
              _ _ bar_line _ _ eq_refl _).
    + done.
    + reflexivity.
    + apply (bool_decide_unpack _). vm_compute. exact I.
    + apply (bool_decide_unpack _). vm_compute. exact I.
  - exact (proj2 (C5_unknown_section_is_fatal headers_foo [text_section 0x34 2]
                    objdump_foo eq_refl)
             {| symbols := [foo]; sections := [text_section 0x34 2] |} eq_refl).
Defined.

(** Only a compile-unit marker changes [currentFile] within the loop body. *)
Lemma currentFileAt_not_marker st m :
  m7 m ≠ "d"%char ∨ m8 m ≠ "f"%char → currentFileAt st m = currentFile st.
Proof.
  unfold currentFileAt. intros [H|H].
  - by rewrite (bool_decide_eq_false_2 _ H).
  - rewrite (bool_decide_eq_false_2 _ H). by rewrite andb_false_r.
Qed.

(** The first compile-unit marker of a report is itself a Local symbol, read
    while [currentFile] is still unset; the check finds the name that the
    marker has just set, and the scope stays Local. *)
Example getSymbols_first_marker :
  getSymbols [text_section 0x34 2]
    {| status := Some 0;
       stdout := "00000000 l    df *ABS*" +:+ TAB +:+ "00000000 main.c" |}
  = Returns [Sym.mk 0 0 SymbolType.File SymbolScope.Local "*ABS*" 0 "main.c"
               None (Some "main.c") false].
Proof. reflexivity. Qed.

(** C6. The LTO scope fix. For a matched line whose scope flag decodes to
    Local: if [currentFile], as the check reads it (after the first statement
    of the loop body, which sets it when the line itself is a compile-unit
    marker), is unset or is "<artificial>", then the Symbol pushed for this
    line has scope Global, and therefore a null [file]. [st] is the state of
    the loop when it reaches the line, and the Symbol of the line is the one
    at index [length (pushed st)] of the symbols that [getSymbols] leaves. *)
Theorem C6_lto_scope_fix secs objdump pre line post m st syms :
  splitLF (removeCR (stdout objdump)) = pre ++ line :: post →
  decodeLines secs {| currentFile := None; pushed := [] |} pre = Returns st →
  matchSymbol line = Some m →
  SCOPE_MAP !! m2 m = Some SymbolScope.Local →
  currentFileAt st m = None ∨ currentFileAt st m = Some "<artificial>" →
  getSymbols secs objdump = Returns syms →
  ∃ s, syms !! length (pushed st) = Some s
       ∧ Sym.name s = symbolName m
       ∧ Sym.scope s = SymbolScope.Global
       ∧ Sym.file s = None.
Proof.
  intros Hlines Hpre Hm Hlocal Hcf (stN & Hscan & ->)%getSymbols_Returns.
  revert Hscan. rewrite Hlines, decodeLines_app, Hpre.
  simpl. unfold decodeLine. rewrite Hm.
  destruct (decodeMatch secs st m) as [st1|] eqn:E; simpl; [|done].
  apply decodeMatch_Returns in E as (_ & sym & -> & _ & Hname & _ & Hfix).
  destruct (Hfix Hlocal Hcf) as [Hscope Hfile].
  intros (ext & -> & _)%decodeLines_Returns. simpl.
  exists sym. split; [|done].
  rewrite <- app_assoc. by rewrite lookup_app_r, Nat.sub_diag.
Qed.

(** C6 on the report of a link-time-optimized unit: the local [foo] that
    follows the marker [<artificial>] comes out Global. *)
Lemma C6_lto_scope_fix_witness :
  ∃ s, [Sym.mk 0 0 SymbolType.File SymbolScope.Global "*ABS*" 0 "<artificial>" None None false;
        foo] !! 1%nat = Some s
       ∧ Sym.name s = "foo"
       ∧ Sym.scope s = SymbolScope.Global
       ∧ Sym.file s = None.
Proof.
  exact (C6_lto_scope_fix [text_section 0x34 2] objdump_lto
           ["SYMBOL TABLE:"; artificial_line] local_line [""]
           {| m1 := "00001050"; m2 := "l"; m3 := " "; m4 := " "; m5 := " ";
              m6 := " "; m7 := " "; m8 := "F"; m9 := ".text";
              m10 := "00000020"; m11 := "foo" |}
           {| currentFile := Some "<artificial>";
              pushed := [Sym.mk 0 0 SymbolType.File SymbolScope.Global "*ABS*" 0
                           "<artificial>" None None false] |}
           [Sym.mk 0 0 SymbolType.File SymbolScope.Global "*ABS*" 0
              "<artificial>" None None false; foo]
           eq_refl eq_refl eq_refl eq_refl (or_intror eq_refl) eq_refl).
Defined.

(** ** The claims about relocation *)

Lemma new_SymbolTable_resolved headers syms t :
  new_SymbolTable headers syms = Returns t →
  ∀ s, s ∈ symbols t → resolved (sections t) s.
Proof.
  intros [_ Hsyms]%new_SymbolTable_Returns.
  exact (getSymbols_resolved _ _ _ Hsyms).
Qed.

Lemma elem_of_updateBases secs syms s :
  s ∈ updateBases secs syms ↔ ∃ s0, s = updateBase secs s0 ∧ s0 ∈ syms.
Proof. apply list_elem_of_fmap. Qed.

Lemma resolved_step secs secs' syms :
  Sec.name <$> secs' = Sec.name <$> secs →
  (∀ s, s ∈ syms → resolved secs s) →
  ∀ s, s ∈ updateBases secs' syms → resolved secs' s.
Proof.
  intros Hnames Hres s (s0 & -> & Hin)%elem_of_updateBases.
  unfold resolved. rewrite updateBase_section, Hnames. by apply Hres.
Qed.

Lemma reachable_resolved t :
  reachable t → ∀ s, s ∈ symbols t → resolved (sections t) s.
Proof.
  induction 1 as [headers syms t Hnew|rs t _ IH|off t _ IH].
  - exact (new_SymbolTable_resolved _ _ _ Hnew).
  - apply (resolved_step (sections t) _ (symbols t));
      [apply relocateSections_names | done].
  - apply (resolved_step (sections t) _ (symbols t));
      [apply relocateWithOffset_names | done].
Qed.

(** After the loop over the symbols, a symbol that has an owning Section
    carries its address. *)
Lemma updateBases_owned secs syms s :
  s ∈ updateBases secs syms →
  ∀ section, find (λ x, Sec.name x = Sym.section s) secs = Some section →
  Sym.base s = Sec.address section.
Proof.
  intros (s0 & -> & _)%elem_of_updateBases section.
  rewrite updateBase_section. unfold updateBase. by intros ->.
Qed.

(** C2. Immediately after a call of [relocate] or of [relocateWithOffset],
    the table has the symbols it had before the call, in the same order, each
    with a base written by the call and otherwise as it was: the symbol at
    index [i] after the call is the symbol at index [i] before it but for its
    base; its relocated effective address is [address + base]; and when it has
    an owning Section, its base is the current address of that Section. In a
    table built by the constructor and relocated any number of times, every
    symbol whose section is not "*ABS*" has an owning Section, so its base is
    the current address of its owning Section. *)
Theorem C2_base_tracks_section t t' :
  (∃ rs, t' = relocate rs t) ∨ (∃ off, t' = relocateWithOffset off t) →
  length (symbols t') = length (symbols t)
  ∧ ∀ i s, symbols t !! i = Some s →
      ∃ s', symbols t' !! i = Some s'
            ∧ s' = Sym.with_base s (Sym.base s')
            ∧ effectiveAddress true s' = Sym.address s + Sym.base s'
            ∧ (∀ section, owningSection t' s' = Some section →
                          Sym.base s' = Sec.address section)
            ∧ (reachable t → Sym.section s ≠ "*ABS*" →
               ∃ section, owningSection t' s' = Some section
                          ∧ Sym.base s' = Sec.address section).
Proof.
  intros Hcall.
  assert (Hsyms : symbols t' = updateBases (sections t') (symbols t)).
  { by destruct Hcall as [[rs ->]|[off ->]]. }
  split.
  { rewrite Hsyms. unfold updateBases. by rewrite length_fmap. }
  intros i s Hi. exists (updateBase (sections t') s).
  assert (Hin : updateBase (sections t') s ∈ symbols t').
  { rewrite Hsyms. apply elem_of_updateBases. exists s. split; [done|].
    by eapply list_elem_of_lookup_2. }
  assert (Howned : ∀ section,
            owningSection t' (updateBase (sections t') s) = Some section →
            Sym.base (updateBase (sections t') s) = Sec.address section).
  { intros section Hfind. rewrite Hsyms in Hin.
    exact (updateBases_owned (sections t') (symbols t) _ Hin section Hfind). }
  split_and!.
  - rewrite Hsyms. unfold updateBases. by rewrite list_lookup_fmap, Hi.
  - unfold updateBase. destruct (find _ (sections t')); [done | by destruct s].
  - unfold effectiveAddress, updateBase. by destruct (find _ (sections t')).
  - exact Howned.
  - intros Hreach Habs.
    assert (Hreach' : reachable t').
    { destruct Hcall as [[rs ->]|[off ->]]; by constructor. }
    destruct (reachable_resolved t' Hreach' _ Hin) as [Hs|Hname].
    { by rewrite updateBase_section in Hs. }
    apply find_name_is_Some in Hname as [section Hfind].
    exists section. split; [done|]. by apply Howned.
Qed.

(** C2 on the table of the scenario: after [relocateWithOffset(0x8000)], and
    after [relocate] with the pair ([.text], 0x7000), the table holds [foo]
    with the address of [.text] as its base. *)
Lemma C2_base_tracks_section_witness :
  let t := {| symbols := [foo]; sections := [text_section 0x34 2] |} in
  (let t' := relocateWithOffset 0x8000 t in
   length (symbols t') = 1%nat
   ∧ ∃ s', symbols t' !! 0%nat = Some s'
           ∧ s' = Sym.with_base foo (Sym.base s')
           ∧ effectiveAddress true s' = 0x50 + Sym.base s'
           ∧ ∃ section, owningSection t' s' = Some section
                        ∧ Sym.base s' = Sec.address section)
  ∧ (let t' := relocate [Sec.with_address (text_section 0x34 2) 0x7000] t in
     length (symbols t') = 1%nat
     ∧ ∃ s', symbols t' !! 0%nat = Some s'
             ∧ s' = Sym.with_base foo (Sym.base s')
             ∧ effectiveAddress true s' = 0x50 + Sym.base s'
             ∧ ∃ section, owningSection t' s' = Some section
                          ∧ Sym.base s' = Sec.address section).
Proof.
  intros t.
  assert (Hreach : reachable t).
  { exact (reachable_new headers_foo objdump_foo t eq_refl). }
  assert (Habs : Sym.section foo ≠ "*ABS*").
  { apply (bool_decide_unpack _). vm_compute. exact I. }
  split; intros t'.
  - destruct (C2_base_tracks_section t t' (or_intror (ex_intro _ 0x8000 eq_refl)))
      as [Hlen Hsym].
    split; [exact Hlen|].
    destruct (Hsym 0%nat foo eq_refl) as (s' & Hi & Hsame & Heff & _ & Hown).
    exists s'. split_and!; [exact Hi | exact Hsame | exact Heff | exact (Hown Hreach Habs)].
  - destruct (C2_base_tracks_section t t'
                (or_introl (ex_intro _ [Sec.with_address (text_section 0x34 2) 0x7000]
                              eq_refl)))
      as [Hlen Hsym].
    split; [exact Hlen|].
    destruct (Hsym 0%nat foo eq_refl) as (s' & Hi & Hsame & Heff & _ & Hown).
    exists s'. split_and!; [exact Hi | exact Hsame | exact Heff | exact (Hown Hreach Habs)].
Defined.

(** ** Idempotence *)

Lemma with_address_with_address {A B C} (s : Sec.t A) (a : B) (b : C) :
  Sec.with_address (Sec.with_address s a) b = Sec.with_address s b.
Proof. done. Qed.

Lemma with_address_id (s : SectionRecord) : Sec.with_address s (Sec.address s) = s.
Proof. by destruct s. Qed.

Lemma relocateSections_nil rs : fold_left relocateSection rs [] = [].
Proof. induction rs; simpl; done. Qed.

(** The first loop of [relocate], unfolded along the table: the head takes
    the last address given for its name, and the elements of the argument
    that bear this name never reach the tail. *)
Lemma relocateSections_cons rs s secs :
  fold_left relocateSection rs (s :: secs)
  = Sec.with_address s (lastAddress (Sec.name s) rs (Sec.address s))
    :: fold_left relocateSection (filter (λ r, Sec.name r ≠ Sec.name s) rs) secs.
Proof.
  revert s secs. induction rs as [|r rs IH]; intros s secs.
  { simpl. by rewrite with_address_id. }
  cbn [fold_left]. rewrite relocateSection_cons, filter_cons.
  unfold lastAddress. cbn [fold_left]. fold (lastAddress (Sec.name s)).
  destruct (decide (Sec.name s = Sec.name r)) as [Heq|Hne].
  - rewrite IH. simpl. rewrite with_address_with_address.
    rewrite decide_True by done. rewrite decide_False by (by intros []).
    done.
  - rewrite IH. rewrite decide_False by done.
    rewrite decide_True by done. done.
Qed.

Lemma lastAddress_idemp n rs a :
  lastAddress n rs (lastAddress n rs a) = lastAddress n rs a.
Proof.
  assert (H : (∀ a, lastAddress n rs a = a)
              ∨ (∀ a b, lastAddress n rs a = lastAddress n rs b)).
  { induction rs as [|r rs IH]; [by left|].
    unfold lastAddress in *. cbn [fold_left].
    destruct IH as [IH|IH].
    - case_decide.
      + right. intros ? ?. by rewrite !IH.
      + left. intros ?. by rewrite IH.
    - right. intros ? ?. apply IH. }
  destruct H as [H|H]; [by rewrite !H | apply H].
Qed.

Lemma relocateSections_idemp rs secs :
  fold_left relocateSection rs (fold_left relocateSection rs secs)
  = fold_left relocateSection rs secs.
Proof.
  revert rs. induction secs as [|s secs IH]; intros rs.
  { by rewrite !relocateSections_nil. }
  rewrite !relocateSections_cons. simpl.
  rewrite with_address_with_address, lastAddress_idemp, IH. done.
Qed.

Lemma updateBase_idemp secs s :
  updateBase secs (updateBase secs s) = updateBase secs s.
Proof.
  unfold updateBase at 2 3.
  destruct (find _ secs) as [section|] eqn:E.
  - unfold updateBase. simpl. by rewrite E.
  - unfold updateBase. by rewrite E.
Qed.

Lemma updateBases_idemp secs syms :
  updateBases secs (updateBases secs syms) = updateBases secs syms.
Proof.
  unfold updateBases. rewrite <- list_fmap_compose. apply list_fmap_ext.
  intros ? ? ?. apply updateBase_idemp.
Qed.

(** C3. Both relocation methods are idempotent: for any table, a second call
    with the same argument (the same list of named addresses for [relocate],
    the same offset for [relocateWithOffset]) leaves the table, hence every
    Section address and every Symbol base, as the first call left it. *)
Theorem C3_relocation_idempotent (t : SymbolTable) :
  (∀ rs, relocate rs (relocate rs t) = relocate rs t)
  ∧ (∀ off, relocateWithOffset off (relocateWithOffset off t)
            = relocateWithOffset off t).
Proof.
  split.
  - intros rs. unfold relocate. simpl.
    by rewrite relocateSections_idemp, updateBases_idemp.
  - intros off. unfold relocateWithOffset. simpl.
    assert (Hsecs : ∀ secs : list SectionRecord,
      (λ section, if isLoaded section
                  then Sec.with_address section (Sec.vma section + off)
                  else section)
      <$> ((λ section, if isLoaded section
                       then Sec.with_address section (Sec.vma section + off)
                       else section) <$> secs)
      = (λ section, if isLoaded section
                    then Sec.with_address section (Sec.vma section + off)
                    else section) <$> secs).
    { intros secs. rewrite <- list_fmap_compose. apply list_fmap_ext.
      intros _ s _. simpl. destruct (isLoaded s) eqn:E; [|by rewrite E].
      by unfold isLoaded in *; simpl; rewrite E. }
    by rewrite Hsecs, updateBases_idemp.
Qed.

(** ** The frame of [relocate] *)

(** What [relocate] leaves alone. *)
Lemma relocateSection_lookup secs r i s :
  secs !! i = Some s →
  (∃ a, relocateSection secs r !! i = Some (Sec.with_address s a))
  ∧ (Sec.name s ≠ Sec.name r → relocateSection secs r !! i = Some s).
Proof.
  revert i. induction secs as [|x secs IH]; intros i; [done|].
  rewrite relocateSection_cons. destruct i as [|i]; simpl.
  - intros [= ->]. case_decide; simpl.
    + split; [by eexists | done].
    + split; [|done]. exists (Sec.address s). by rewrite with_address_id.
  - intros Hi. case_decide; simpl; [|by apply IH].
    split; [|done]. exists (Sec.address s). by rewrite with_address_id.
Qed.

Lemma relocateSections_lookup rs secs i s :
  secs !! i = Some s →
  (∃ a, fold_left relocateSection rs secs !! i = Some (Sec.with_address s a))
  ∧ (Sec.name s ∉ Sec.name <$> rs → fold_left relocateSection rs secs !! i = Some s).
Proof.
  revert secs s. induction rs as [|r rs IH]; intros secs s Hi; simpl.
  { split; [|done]. exists (Sec.address s). by rewrite with_address_id. }
  destruct (relocateSection_lookup secs r i s Hi) as [[a Ha] Hne]. split.
  - destruct (IH _ _ Ha) as [[b Hb] _]. exists b. by rewrite Hb.
  - rewrite not_elem_of_cons. intros [Hr Hrs].
    apply (IH _ _ (Hne Hr)). done.
Qed.

Lemma updateBases_lookup secs syms i s :
  syms !! i = Some s → updateBases secs syms !! i = Some (updateBase secs s).
Proof. intros Hi. unfold updateBases. by rewrite list_lookup_fmap, Hi. Qed.

(** C8, as stated, fails: [relocate] has no test for the sentinel, it skips
    the symbols that the join by name does not find. In the table that the
    constructor builds from [headers_abs] and [objdump_abs], whose Section is
    named "*ABS*", the absolute symbol [limit] is found by the join, and
    [relocate] with the pair ("*ABS*", 0x4000) moves its base from 0 to
    0x4000. *)
Lemma C8_abs_symbols_not_always_skipped :
  let t := {| symbols := [limit]; sections := [abs_section] |} in
  let t' := relocate [Sec.with_address abs_section 0x4000] t in
  new_SymbolTable headers_abs objdump_abs = Returns t
  ∧ Sym.section limit = "*ABS*"
  ∧ Sym.base limit = 0
  ∧ symbols t' = [Sym.with_base limit 0x4000]
  ∧ ¬ (∀ rs t, reachable t →
         ∀ i s, symbols t !! i = Some s → Sym.section s = "*ABS*" →
                symbols (relocate rs t) !! i = Some s).
Proof.
  intros t t'. split_and!; try reflexivity.
  intros H.
  specialize (H [Sec.with_address abs_section 0x4000] t
                (reachable_new headers_abs objdump_abs _ eq_refl)
                0%nat limit eq_refl eq_refl).
  vm_compute in H. discriminate H.
Qed.

(** C8, amended. [relocate] changes nothing of a Section but its address,
    and leaves whole every Section whose name is not among those of the
    argument; afterwards every Symbol whose section is found in the table
    has the current address of that Section as its base, and every Symbol
    whose section is not found keeps the base it had. The symbols of section
    "*ABS*" are among the latter when no Section of the table is named
    "*ABS*". *)
Theorem C8_relocate_frame rs t :
  let t' := relocate rs t in
  (∀ i section, sections t !! i = Some section →
     (∃ a, sections t' !! i = Some (Sec.with_address section a))
     ∧ (Sec.name section ∉ Sec.name <$> rs → sections t' !! i = Some section))
  ∧ (∀ i s, symbols t !! i = Some s →
       match owningSection t' s with
       | Some section =>
           symbols t' !! i = Some (Sym.with_base s (Sec.address section))
       | None => symbols t' !! i = Some s
       end)
  ∧ (∀ i s, symbols t !! i = Some s →
       Sym.section s = "*ABS*" → "*ABS*" ∉ Sec.name <$> sections t →
       symbols t' !! i = Some s).
Proof.
  intros t'. subst t'. split_and!.
  - intros i section Hi. by apply relocateSections_lookup.
  - intros i s Hi. unfold owningSection.
    pose proof (updateBases_lookup (sections (relocate rs t)) (symbols t) i s Hi) as Hs.
    unfold updateBase in Hs. by destruct (find _ (sections (relocate rs t))).
  - intros i s Hi Habs Hnone.
    pose proof (updateBases_lookup (sections (relocate rs t)) (symbols t) i s Hi) as Hs.
    unfold updateBase in Hs. revert Hs.
    destruct (find _ (sections (relocate rs t))) as [section|] eqn:E; [intros _|done].
    exfalso. apply Hnone. rewrite <- (relocate_names rs t), <- Habs.
    apply find_name_is_Some. by rewrite E.
Qed.

(** C8, amended, on a table with [.text] and [.data], a function and an
    absolute symbol, for [relocate] with the one pair ([.text], 0x9000). *)
Lemma C8_relocate_frame_witness :
  let t := {| symbols := [foo; limit];
              sections := [text_section 0 2; data_section] |} in
  let t' := relocate [Sec.with_address (text_section 0 2) 0x9000] t in
  sections t' !! 1%nat = Some data_section
  ∧ symbols t' !! 0%nat = Some (Sym.with_base foo 0x9000)
  ∧ symbols t' !! 1%nat = Some limit.
Proof.
  intros t t'.
  destruct (C8_relocate_frame [Sec.with_address (text_section 0 2) 0x9000] t)
    as (Hsec & Hsym & Habs).
  split_and!.
  - apply (Hsec 1%nat data_section eq_refl).
    apply (bool_decide_unpack _). vm_compute. exact I.
  - exact (Hsym 0%nat foo eq_refl).
  - apply (Habs 1%nat limit eq_refl eq_refl).
    apply (bool_decide_unpack _). vm_compute. exact I.
Defined.

(** ** The claims about the snapshot *)

Lemma snapshot_loop relocatedBases secs out count :
  fold_left (snapshotStep relocatedBases) secs (out, count)
  = (out ++ snapshotFrom relocatedBases count secs,
     (count + length (loaded secs))%nat).
Proof.
  revert out count. induction secs as [|s secs IH]; intros out count.
  { simpl. by rewrite app_nil_r, Nat.add_0_r. }
  cbn [fold_left snapshotStep snapshotFrom]. unfold loaded.
  rewrite filter_cons. fold (loaded secs).
  destruct (isLoaded s) eqn:E; rewrite IH, <- app_assoc.
  - rewrite decide_True by done. simpl. f_equal. lia.
  - rewrite decide_False by done. done.
Qed.

Lemma snapshotFrom_length relocatedBases count secs :
  length (snapshotFrom relocatedBases count secs) = length secs.
Proof.
  revert count. induction secs as [|s secs IH]; intros count; [done|].
  simpl. destruct (isLoaded s); simpl; by rewrite IH.
Qed.

Lemma snapshotFrom_lookup relocatedBases count secs i section :
  secs !! i = Some section →
  snapshotFrom relocatedBases count secs !! i
  = Some (Sec.with_address section
            (if isLoaded section
             then relocatedBases !! (count + length (loaded (take i secs)))%nat
             else Some (Sec.vma section))).
Proof.
  revert count i. induction secs as [|s secs IH]; intros count i; [done|].
  destruct i as [|i]; simpl.
  - intros [= ->]. destruct (isLoaded section); simpl; [|done].
    by rewrite Nat.add_0_r.
  - intros Hi. unfold loaded. rewrite filter_cons. fold (loaded (take i secs)).
    destruct (isLoaded s) eqn:E; simpl; rewrite (IH _ _ Hi); [|done].
    by rewrite Nat.add_succ_r.
Qed.

Lemma loaded_take_lt secs i section :
  secs !! i = Some section → isLoaded section = true →
  (length (loaded (take i secs)) < length (loaded secs))%nat.
Proof.
  intros Hi Hl. rewrite <- (take_drop_middle secs i section Hi) at 2.
  unfold loaded. rewrite filter_app, filter_cons, decide_True by done.
  rewrite length_app. simpl. lia.
Qed.

(** C4. [getRelocatedSections] throws the count-mismatch error exactly when
    the length of the supplied array differs from the number of Sections
    that are flagged ALLOC and have non-zero size. Otherwise it returns one
    record per Section, in table order, equal to the Section but for its
    address: for a qualifying Section, the entry of the array at the rank of
    the Section among the qualifying ones; for any other, its vma. *)
Theorem C4_snapshot_count (relocatedBases : list Z) (t : SymbolTable) :
  let count := length (loaded (sections t)) in
  (length relocatedBases ≠ count ↔
   getRelocatedSections relocatedBases t
   = Throws (SectionsMismatch (length relocatedBases) count))
  ∧ (length relocatedBases = count ↔
     ∃ out,
       getRelocatedSections relocatedBases t = Returns out
       ∧ length out = length (sections t)
       ∧ ∀ i section, sections t !! i = Some section →
           if isLoaded section
           then ∃ a, relocatedBases !! length (loaded (take i (sections t))) = Some a
                     ∧ out !! i = Some (Sec.with_address section (Some a))
           else out !! i = Some (Sec.with_address section (Some (Sec.vma section)))).
Proof.
  intros count. unfold getRelocatedSections.
  rewrite snapshot_loop. simpl. fold count. split.
  - case_bool_decide as Hc; split; intros H; done.
  - case_bool_decide as Hc; split; intros H; try done.
    + by destruct H as (out & [=] & _).
    + eexists. split; [done|]. split; [apply snapshotFrom_length|].
      intros i section Hi. rewrite (snapshotFrom_lookup _ _ _ _ _ Hi). simpl.
      destruct (isLoaded section) eqn:E; [|done].
      destruct (relocatedBases !! _) as [a|] eqn:Ea; [by exists a|].
      apply lookup_ge_None in Ea.
      pose proof (loaded_take_lt _ _ _ Hi E). unfold count in *. lia.
Qed.

(** C4 on a table with two qualifying Sections around one that does not
    qualify, for one address and for two. *)
Lemma C4_snapshot_count_witness :
  let t := {| symbols := [foo];
              sections := [text_section 0 2; comment_section; data_section] |} in
  getRelocatedSections [0x9000] t = Throws (SectionsMismatch 1 2)
  ∧ ∃ out,
      getRelocatedSections [0x9000; 0xa000] t = Returns out
      ∧ length out = 3%nat
      ∧ ∀ i section, sections t !! i = Some section →
          if isLoaded section
          then ∃ a, [0x9000; 0xa000] !! length (loaded (take i (sections t))) = Some a
                    ∧ out !! i = Some (Sec.with_address section (Some a))
          else out !! i = Some (Sec.with_address section (Some (Sec.vma section))).
Proof.
  intros t. split.
  - refine (proj1 (proj1 (C4_snapshot_count [0x9000] t)) _).
    apply (bool_decide_unpack _). vm_compute. exact I.
  - refine (proj1 (proj2 (C4_snapshot_count [0x9000; 0xa000] t)) _).
    vm_compute. reflexivity.
Defined.

(** ** The claims about the queries *)

Lemma head_if_nonempty {A} (l : list A) :
  (if bool_decide (length l ≠ 0%nat) then head l else None) = head l.
Proof. by destruct l. Qed.

(** C7. [getFunctionByName(name, file)] returns the first Function symbol of
    Local scope with that name whose file is the given file; when there is
    none, the first Function symbol with that name whose scope is not Local;
    when there is none either, null. With a Local [helper] of file "a.c" and
    a Global [helper], in either order, the query for "a.c" returns the Local
    one and the query for "b.c" the Global one. *)
Theorem C7_function_by_name :
  (∀ name file t,
     getFunctionByName name file t
     = match find (isLocalFunction name file) (symbols t) with
       | Some s => Some s
       | None => find (isOtherFunction name) (symbols t)
       end)
  ∧ (∀ a1 n1 a2 n2 secs,
       let t := {| symbols := [helper_local a1 n1; helper_global a2 n2];
                   sections := secs |} in
       let t' := {| symbols := [helper_global a2 n2; helper_local a1 n1];
                    sections := secs |} in
       getFunctionByName "helper" (Some "a.c") t = Some (helper_local a1 n1)
       ∧ getFunctionByName "helper" (Some "b.c") t = Some (helper_global a2 n2)
       ∧ getFunctionByName "helper" (Some "a.c") t' = Some (helper_local a1 n1)
       ∧ getFunctionByName "helper" (Some "b.c") t' = Some (helper_global a2 n2)).
Proof.
  split.
  - intros name file t. unfold getFunctionByName.
    fold (isLocalFunction name file) (isOtherFunction name).
    rewrite <- !head_filter, head_if_nonempty.
    destruct (filter (isLocalFunction name file) (symbols t)) as [|s l] eqn:E.
    + by rewrite bool_decide_eq_false_2 by (simpl; lia).
    + by rewrite bool_decide_eq_true_2 by done.
  - intros a1 n1 a2 n2 secs. by vm_compute.
Qed.

Lemma getFunctionAtAddress_Some address relocated t s :
  getFunctionAtAddress address relocated t = Some s →
  s ∈ symbols t ∧ containsAddress address relocated s.
Proof.
  unfold getFunctionAtAddress. intros Hhead.
  apply head_Some_elem_of, list_elem_of_filter in Hhead as [? ?]. done.
Qed.

(** C9. For every address and either value of [relocated],
    [getFunctionAtAddress] returns only a symbol of type Function whose range
    holds the address, and so never one of size 0: the range of such a symbol
    is empty. A table whose Function symbols all have size 0 yields null. *)
Theorem C9_zero_size_function_never_matches (address : Z) (relocated : bool)
    (t : SymbolTable) :
  (∀ s, getFunctionAtAddress address relocated t = Some s →
        Sym.type s = SymbolType.Function
        ∧ effectiveAddress relocated s ≤ address < effectiveAddress relocated s + Sym.size s
        ∧ Sym.size s ≠ 0)
  ∧ ((∀ s, s ∈ symbols t → Sym.type s = SymbolType.Function → Sym.size s = 0) →
     getFunctionAtAddress address relocated t = None).
Proof.
  split.
  - intros s (_ & Htype & Hle & Hgt)%getFunctionAtAddress_Some.
    split_and!; [done|lia|lia|lia].
  - intros Hzero.
    destruct (getFunctionAtAddress address relocated t) as [s|] eqn:E; [|done].
    apply getFunctionAtAddress_Some in E as (Hin & Htype & Hle & Hgt).
    specialize (Hzero s Hin Htype). lia.
Qed.

(** C9 on the table of the scenario, and on a table whose only function has
    size 0. *)
Lemma C9_zero_size_function_never_matches_witness :
  (Sym.type (Sym.with_base foo 0x9000) = SymbolType.Function
   ∧ effectiveAddress true (Sym.with_base foo 0x9000) ≤ 0x9050
       < effectiveAddress true (Sym.with_base foo 0x9000) + Sym.size (Sym.with_base foo 0x9000)
   ∧ Sym.size (Sym.with_base foo 0x9000) ≠ 0)
  ∧ getFunctionAtAddress 0x50 false
      {| symbols := [stub; limit]; sections := [text_section 0 2] |} = None.
Proof.
  split.
  - exact (proj1 (C9_zero_size_function_never_matches 0x9050 true
                    (relocateWithOffset 0x8000
                       {| symbols := [foo]; sections := [text_section 0 2] |}))
             (Sym.with_base foo 0x9000) eq_refl).
  - refine (proj2 (C9_zero_size_function_never_matches 0x50 false
                     {| symbols := [stub; limit]; sections := [text_section 0 2] |}) _).
    intros s Hin Htype.
    apply elem_of_cons in Hin as [->|Hin]; [reflexivity|].
    apply elem_of_cons in Hin as [->|Hin]; [discriminate Htype|].
    by apply elem_of_nil in Hin.
Defined.

(** ** The snapshot over the heap *)

Lemma isLoaded_stored (s : SectionRecord) : isLoaded (Store.stored s) = isLoaded s.
Proof. done. Qed.

(** The loop over the heap allocates, and does nothing else: it leaves every
    object in place, and the references it pushes are new, distinct, and lead
    to the records that the loop over the values pushes. *)
Lemma store_snapshot_loop relocatedBases (h0 : gmap Store.ref (Sec.t (option Z)))
    refs secs :
  Forall2 (λ r s, h0 !! r = Some (Store.stored s)) refs secs →
  ∀ h out count, h0 ⊆ h →
  ∃ h' new,
    fold_left (Store.snapshotStep relocatedBases) refs (Some (h, out, count))
    = Some (h', out ++ new, (count + length (loaded secs))%nat)
    ∧ h ⊆ h'
    ∧ Forall2 (λ r o, h' !! r = Some o) new (snapshotFrom relocatedBases count secs)
    ∧ NoDup new
    ∧ ∀ r, r ∈ new → h !! r = None.
Proof.
  induction 1 as [|r s refs secs Hr _ IH]; intros h out count Hsub.
  { exists h, []. simpl. rewrite app_nil_r, Nat.add_0_r.
    split_and!; [done | done | constructor | apply NoDup_nil_2
                | by intros ? ?%elem_of_nil]. }
  pose proof (lookup_weaken _ _ _ _ Hr Hsub) as Hread.
  pose proof (is_fresh (dom h)) as Hfresh. rewrite not_elem_of_dom in Hfresh.
  set (new := fresh (dom h)) in *.
  assert (Hstep : ∀ a,
    h ⊆ <[new := a]> h ∧ h0 ⊆ <[new := a]> h).
  { intros a. assert (h ⊆ <[new := a]> h) by by apply insert_subseteq.
    split; [done|]. by etrans. }
  cbn [fold_left Store.snapshotStep]. simpl. rewrite Hread. simpl.
  fold new. rewrite isLoaded_stored. unfold loaded. rewrite filter_cons.
  fold (loaded secs). unfold Store.stored at 1 2.
  rewrite !with_address_with_address.
  destruct (isLoaded s) eqn:E.
  - destruct (Hstep (Sec.with_address s (relocatedBases !! count))) as [Hh Hh0].
    destruct (IH _ (out ++ [new]) (S count) Hh0) as (h' & rest & -> & Hh' & Hobjs & Hnd & Hnew).
    exists h', (new :: rest). rewrite decide_True by done.
    split_and!.
    + rewrite <- app_assoc. simpl. do 2 f_equal. lia.
    + by etrans.
    + constructor; [|done]. apply (lookup_weaken _ _ _ _ (lookup_insert_eq _ _ _) Hh').
    + constructor; [|done]. intros Hin. apply Hnew in Hin.
      by rewrite lookup_insert_eq in Hin.
    + intros r' [->|Hin]%elem_of_cons; [done|].
      apply Hnew in Hin. by apply lookup_insert_None in Hin as [? _].
  - destruct (Hstep (Sec.with_address s (Some (Sec.vma s)))) as [Hh Hh0].
    destruct (IH _ (out ++ [new]) count Hh0) as (h' & rest & -> & Hh' & Hobjs & Hnd & Hnew).
    exists h', (new :: rest). rewrite decide_False by done.
    split_and!.
    + by rewrite <- app_assoc.
    + by etrans.
    + constructor; [|done]. apply (lookup_weaken _ _ _ _ (lookup_insert_eq _ _ _) Hh').
    + constructor; [|done]. intros Hin. apply Hnew in Hin.
      by rewrite lookup_insert_eq in Hin.
    + intros r' [->|Hin]%elem_of_cons; [done|].
      apply Hnew in Hin. by apply lookup_insert_None in Hin as [? _].
Qed.

(** C10. [getRelocatedSections] is a pure read. On a heap that holds the
    table, the call completes, by returning or by throwing as the function on
    values does, and in both cases [this.sections] and [this.symbols] list
    the same references as before, every object that was on the heap (so
    every stored Section and Symbol, with its address and base) is as it was,
    and the heap still holds the same table. When the call returns, the
    references it returns are distinct and new: none of them was on the heap
    before, so none is a reference to a stored Section; the objects they lead
    to are the records that the function on values returns. *)
Theorem C10_snapshot_is_pure_read (relocatedBases : list Z) (σ : Store.State)
    (t : SymbolTable) :
  Store.represents σ t →
  ∃ σ' res,
    Store.getRelocatedSections relocatedBases σ = Some (σ', res)
    ∧ Store.this_sections σ' = Store.this_sections σ
    ∧ Store.this_symbols σ' = Store.this_symbols σ
    ∧ Store.symbolObjects σ' = Store.symbolObjects σ
    ∧ (∀ r o, Store.sectionObjects σ !! r = Some o →
              Store.sectionObjects σ' !! r = Some o)
    ∧ Store.represents σ' t
    ∧ match res with
      | Throws e => getRelocatedSections relocatedBases t = Throws e
      | Returns out =>
          ∃ records,
            getRelocatedSections relocatedBases t = Returns records
            ∧ Forall2 (λ r o, Store.sectionObjects σ' !! r = Some o) out records
            ∧ NoDup out
            ∧ ∀ r, r ∈ out →
                Store.sectionObjects σ !! r = None
                ∧ r ∉ Store.this_sections σ
      end.
Proof.
  intros [Hsec Hsym].
  destruct (store_snapshot_loop relocatedBases _ _ _ Hsec
              (Store.sectionObjects σ) [] 0%nat)
    as (h' & new & Hloop & Hsub & Hobjs & Hnd & Hnew); [done|].
  unfold Store.getRelocatedSections, getRelocatedSections.
  rewrite Hloop, snapshot_loop. simpl.
  eexists _, _. split; [reflexivity|]. simpl. split_and!; try done.
  - intros r o Hr. by eapply lookup_weaken.
  - split; simpl; [|done].
    eapply Forall2_impl; [exact Hsec|]. simpl. intros r s Hr.
    by eapply lookup_weaken.
  - case_bool_decide; [done|]. exists (snapshotFrom relocatedBases 0 (sections t)).
    split_and!; try done. intros r Hin. split; [by apply Hnew|].
    intros [i Hi]%list_elem_of_lookup_1.
    destruct (Forall2_lookup_l _ _ _ _ _ Hsec Hi) as (s & _ & Hs).
    apply Hnew in Hin. congruence.
Qed.

(** C10 on a heap that holds [.text] and [.comment] at the references 0 and
    1, for one address. *)
Lemma C10_snapshot_is_pure_read_witness :
  ∃ σ' res,
    Store.getRelocatedSections [0x9000] heap_of_scenario = Some (σ', res)
    ∧ Store.this_sections σ' = [0%nat; 1%nat]
    ∧ Store.this_symbols σ' = [0%nat]
    ∧ Store.symbolObjects σ' = {[ 0%nat := foo ]}
    ∧ (∀ r o, Store.sectionObjects heap_of_scenario !! r = Some o →
              Store.sectionObjects σ' !! r = Some o)
    ∧ Store.represents σ'
        {| symbols := [foo]; sections := [text_section 0 2; comment_section] |}
    ∧ match res with
      | Throws e =>
          getRelocatedSections [0x9000]
            {| symbols := [foo]; sections := [text_section 0 2; comment_section] |}
          = Throws e
      | Returns out =>
          ∃ records,
            getRelocatedSections [0x9000]
              {| symbols := [foo]; sections := [text_section 0 2; comment_section] |}
            = Returns records
            ∧ Forall2 (λ r o, Store.sectionObjects σ' !! r = Some o) out records
            ∧ NoDup out
            ∧ ∀ r, r ∈ out →
                Store.sectionObjects heap_of_scenario !! r = None
                ∧ r ∉ [0%nat; 1%nat]
      end.
Proof.
  apply (C10_snapshot_is_pure_read [0x9000] heap_of_scenario
           {| symbols := [foo]; sections := [text_section 0 2; comment_section] |}).
  split; repeat constructor.
Defined.

Example store_getRelocatedSections_scenario :
  snd <$> Store.getRelocatedSections [0x9000] heap_of_scenario
  = Some (Returns [2%nat; 3%nat]).
Proof. by vm_compute. Qed.

(** * Further properties of the code *)

(** ** Strings, matches and numbers *)

Lemma hexValue_bound c : isHexDigit c = true → 0 ≤ hexValue c < 16.
Proof.
  unfold isHexDigit, hexValue. generalize (codeUnit c). intros n Hn.
  apply orb_true_iff in Hn as [Hn|Hn]; apply andb_true_iff in Hn as [H1 H2];
    apply N.leb_le in H1, H2; destruct (n <=? 57)%N eqn:E;
    try apply N.leb_le in E; try apply N.leb_gt in E; lia.
Qed.


(** Reading digits in base [b]: a run of [n] digits reads as a number below
    [b ^ n]. *)
Lemma digits_bound (b : Z) (l : list ascii) (acc : Z) :
  16 ≤ b ∨ (b = 10 ∧ Forall (λ c, hexValue c < 10) l) →
  Forall (λ c, isHexDigit c = true) l → 0 ≤ acc →
  acc * b ^ Z.of_nat (length l)
  ≤ fold_left (λ acc c, b * acc + hexValue c) l acc
  < (acc + 1) * b ^ Z.of_nat (length l).
Proof.
  intros Hb Hl. revert acc. induction Hl as [|c l Hc Hl IH]; intros acc Hacc.
  { simpl. lia. }
  assert (Hc' : 0 ≤ hexValue c < b).
  { pose proof (hexValue_bound c Hc). destruct Hb as [?|[-> Hf]]; [lia|].
    inversion Hf; subst. lia. }
  assert (Hb' : 16 ≤ b ∨ b = 10 ∧ Forall (λ c, hexValue c < 10) l).
  { destruct Hb as [?|[? Hf]]; [by left|right]. split; [done|]. by inversion Hf. }
  assert (0 < b) by (destruct Hb as [?|[-> _]]; lia).
  cbn [fold_left]. specialize (IH Hb' (b * acc + hexValue c) ltac:(nia)).
  rewrite length_cons, Nat2Z.inj_succ, Z.pow_succ_r by lia.
  assert (0 < b ^ Z.of_nat (length l)) by (apply Z.pow_pos_nonneg; lia).
  nia.
Qed.

Lemma parseInt16_bound s :
  Forall (λ c, isHexDigit c = true) (String.list_ascii_of_string s) →
  0 ≤ parseInt16 s < 16 ^ Z.of_nat (String.length s).
Proof.
  intros Hs. unfold parseInt16.
  pose proof (digits_bound 16 _ 0 (or_introl (Z.le_refl 16)) Hs (Z.le_refl 0)) as H.
  assert (length (String.list_ascii_of_string s) = String.length s) as Hlen.
  { clear. induction s; simpl; congruence. }
  rewrite Hlen in H. lia.
Qed.


(** What the pieces of a match hold. *)
Lemma exactly_spec n p s m rest :
  Regex.exactly n p s = Some (m, rest) →
  String.length m = n
  ∧ Forall (λ c, p c = true) (String.list_ascii_of_string m)
  ∧ s = m +:+ rest.
Proof.
  revert s m. induction n as [|n IH]; intros s m; simpl.
  { intros [= <- <-]. by split_and!. }
  unfold Regex.one. destruct s as [|c r]; [done|]. simpl.
  destruct (p c) eqn:Hc; [|done]. simpl.
  destruct (Regex.exactly n p r) as [[m' rest']|] eqn:E; [|done]. simpl.
  intros [= <- <-]. destruct (IH _ _ E) as (Hlen & Hall & ->).
  simpl. split_and!; [by rewrite Hlen | by constructor | done].
Qed.

Lemma many_spec p s m rest :
  Regex.many p s = (m, rest) →
  Forall (λ c, p c = true) (String.list_ascii_of_string m) ∧ s = m +:+ rest.
Proof.
  revert m rest. induction s as [|c r IH]; intros m rest; simpl.
  { intros [= <- <-]. by split. }
  destruct (p c) eqn:Hc.
  - destruct (Regex.many p r) as [m' rest'] eqn:E. intros [= <- <-].
    destruct (IH _ _ eq_refl) as [Hall ->]. split; [by constructor | done].
  - intros [= <- <-]. by split.
Qed.

Lemma many1_spec p s m rest :
  Regex.many1 p s = Some (m, rest) →
  m ≠ ""
  ∧ Forall (λ c, p c = true) (String.list_ascii_of_string m)
  ∧ s = m +:+ rest.
Proof.
  unfold Regex.many1. destruct (Regex.many p s) as [m' rest'] eqn:E.
  destruct m' as [|c m']; [done|]. intros [= <- <-].
  destruct (many_spec _ _ _ _ E) as [? ?]. by split_and!.
Qed.

(** ** [trim] *)

Lemma trimStart_trimmedStart s : trimmedStart (trimStart s).
Proof.
  induction s as [|c r IH]; simpl; [done|].
  destruct (isWhiteSpace c) eqn:E; [done|]. simpl. done.
Qed.

Lemma trimStart_id s : trimmedStart s → trimStart s = s.
Proof. destruct s as [|c r]; simpl; [done|]. by intros ->. Qed.

Lemma trimEnd_trimmedStart s : trimmedStart s → trimmedStart (trimEnd s).
Proof.
  destruct s as [|c r]; simpl; [done|]. intros Hc.
  destruct (trimEnd r); [by rewrite Hc | done].
Qed.

Lemma trimEnd_cons c r :
  trimEnd (String c r)
  = match trimEnd r with
    | EmptyString => if isWhiteSpace c then EmptyString else String c EmptyString
    | r' => String c r'
    end.
Proof. done. Qed.

Lemma trimEnd_idemp s : trimEnd (trimEnd s) = trimEnd s.
Proof.
  induction s as [|c r IH]; [done|]. rewrite trimEnd_cons.
  destruct (trimEnd r) as [|d r'] eqn:E.
  - destruct (isWhiteSpace c) eqn:Hc; [done|]. rewrite trimEnd_cons. simpl.
    by rewrite Hc.
  - by rewrite trimEnd_cons, IH.
Qed.

(** [trim] strips all there is to strip. *)
Lemma trim_idemp s : trim (trim s) = trim s.
Proof.
  unfold trim. rewrite (trimStart_id (trimEnd (trimStart s))).
  - apply trimEnd_idemp.
  - apply trimEnd_trimmedStart, trimStart_trimmedStart.
Qed.

Lemma trimEnd_id s :
  Forall (λ c, isWhiteSpace c = false) (String.list_ascii_of_string s) →
  trimEnd s = s.
Proof.
  induction s as [|c r IH]; simpl; [done|].
  intros Hs. inversion Hs as [|? ? Hc Hr]; subst. rewrite (IH Hr).
  destruct r; [by rewrite Hc | done].
Qed.

Lemma trim_id s :
  Forall (λ c, isWhiteSpace c = false) (String.list_ascii_of_string s) →
  trim s = s.
Proof.
  intros Hs. unfold trim. rewrite trimStart_id; [by apply trimEnd_id|].
  destruct s; [done|]. by inversion Hs.
Qed.

(** ** [getSections] *)

Ltac step_match H :=
  repeat (let x := fresh "x" in
          let E := fresh "E" in
          apply bind_Some in H as (x & E & H);
          try (destruct x as [? ?]);
          cbv beta iota in H).

Lemma matchSection_spec line m :
  matchSection line = Some m →
  h2 m ≠ ""
  ∧ Forall (λ c, isWhiteSpace c = false) (String.list_ascii_of_string (h2 m))
  ∧ Forall (λ s, String.length s = 8%nat
                 ∧ Forall (λ c, isHexDigit c = true) (String.list_ascii_of_string s))
           [h3 m; h4 m; h5 m; h6 m]
  ∧ Forall (λ c, isDigit c = true) (String.list_ascii_of_string (h7 m)).
Proof.
  unfold matchSection. intros Hm. step_match Hm.
  case_bool_decide; [|discriminate Hm]. injection Hm as <-. simpl.
  repeat match goal with
  | E : Regex.exactly _ _ _ = Some _ |- _ =>
      apply exactly_spec in E as (? & ? & _)
  | E : Regex.many1 isDigit _ = Some _ |- _ =>
      apply many1_spec in E as (? & ? & _)
  | E : Regex.many1 (λ c, negb (isWhiteSpace c)) _ = Some _ |- _ =>
      apply many1_spec in E as (? & ? & _)
  end.
  split_and!; try done.
  - match goal with
    | H : Forall (λ c, negb (isWhiteSpace c) = true) _ |- _ =>
        eapply Forall_impl; [exact H|]
    end.
    intros c. simpl. by destruct (isWhiteSpace c).
  - repeat constructor; done.
Qed.

Lemma splitCommaSpace_nonempty s : splitCommaSpace s ≠ [].
Proof.
  induction s as [|c r IH]; simpl; [done|].
  destruct (codeUnit c =? 44)%N; [destruct r as [|c' r']|];
    try destruct (codeUnit c' =? 32)%N; try done;
    by destruct (splitCommaSpace _).
Qed.

(** Whatever holds of every Section that a header line can yield holds of
    every Section read. *)
Lemma readSections_Forall (P : SectionRecord → Prop) (L : string → Prop) :
  (∀ line m next, L line → matchSection line = Some m → P (sectionOf m next)) →
  ∀ lines secs, Forall L lines → readSections lines = Returns secs → Forall P secs.
Proof.
  intros HP lines.
  cut ((∀ secs, Forall L lines → readSections lines = Returns secs → Forall P secs)
       ∧ (∀ secs, Forall L (tail lines) → readSections (tail lines) = Returns secs →
                  Forall P secs)).
  { by intros [? _]. }
  induction lines as [|l lines [IH1 IH2]].
  { split; intros secs _ [= <-]; constructor. }
  split; [|exact IH1]. intros secs [Hl HL]%Forall_cons. simpl.
  destruct (matchSection l) as [m|] eqn:Hm; [|by apply IH1].
  destruct lines as [|next rest]; [done|].
  destruct (readSections rest) as [secs'|] eqn:E; simpl; [|done].
  intros [= <-]. constructor; [exact (HP l m next Hl Hm) | apply IH2; [|done]].
  simpl. by apply Forall_cons in HL as [_ ?].
Qed.

Lemma sectionOf_fields line m next :
  matchSection line = Some m →
  let s := sectionOf m next in
  Sec.address s = 0
  ∧ Sec.name s ≠ ""
  ∧ Forall (λ c, isWhiteSpace c = false) (String.list_ascii_of_string (Sec.name s))
  ∧ 0 ≤ Sec.size s < 2 ^ 32
  ∧ 0 ≤ Sec.vma s < 2 ^ 32
  ∧ 0 ≤ Sec.lma s < 2 ^ 32
  ∧ 0 ≤ Sec.fileOffset s < 2 ^ 32
  ∧ Sec.flags s ≠ [].
Proof.
  intros (Hname & Hws & Hhex & Halign)%matchSection_spec. simpl.
  repeat match goal with
  | H : Forall _ (_ :: _) |- _ =>
      let Hl := fresh "Hl" in
      let Hd := fresh "Hd" in
      apply Forall_cons in H as [[Hl Hd%parseInt16_bound] H];
      rewrite Hl in Hd; change (16 ^ Z.of_nat 8) with (2 ^ 32) in Hd
  end.
  split_and!; try done; try lia.
  apply splitCommaSpace_nonempty.
Qed.

Lemma getSections_Forall objdump secs :
  getSections objdump = Returns secs →
  ∀ s, s ∈ secs →
    Sec.address s = 0
    ∧ Sec.name s ≠ ""
    ∧ Forall (λ c, isWhiteSpace c = false) (String.list_ascii_of_string (Sec.name s))
    ∧ 0 ≤ Sec.size s < 2 ^ 32
    ∧ 0 ≤ Sec.vma s < 2 ^ 32
    ∧ 0 ≤ Sec.lma s < 2 ^ 32
    ∧ 0 ≤ Sec.fileOffset s < 2 ^ 32
    ∧ Sec.flags s ≠ [].
Proof.
  unfold getSections. case_bool_decide; [done|]. intros Hread.
  apply Forall_forall. revert Hread.
  apply (readSections_Forall _ (λ _, True)); [|by apply Forall_true].
  intros line m next _ Hm. exact (sectionOf_fields line m next Hm).
Qed.



(** X2. A report that ends with a header line, with no line of flags after
    it, makes [getSections] throw a TypeError: when the lines before the last
    one read well and the last line is a header, the read of the line after
    it is [undefined] and [trim] is called on it. *)
Theorem getSections_header_without_flags objdump lines line secs m :
  status objdump = Some 0 →
  splitLF (removeCR (stdout objdump)) = lines ++ [line] →
  readSections lines = Returns secs →
  matchSection line = Some m →
  getSections objdump = Throws TypeError.
Proof.
  intros Hst Hlines Hread Hm. unfold getSections.
  rewrite bool_decide_eq_false_2 by (by intros []). rewrite Hlines.
  clear Hst Hlines. revert secs Hread.
  cut ((∀ secs, readSections lines = Returns secs →
                readSections (lines ++ [line]) = Throws TypeError)
       ∧ (∀ secs, readSections (tail lines) = Returns secs →
                  readSections (tail lines ++ [line]) = Throws TypeError)).
  { by intros [? _]. }
  induction lines as [|l lines [IH1 IH2]].
  { split; intros _ _; simpl; by rewrite Hm. }
  split; [|exact IH1]. intros secs. simpl.
  destruct (matchSection l) as [k|] eqn:Hk; [|apply IH1].
  destruct lines as [|next rest]; [done|]. simpl.
  destruct (readSections rest) as [secs'|] eqn:E; simpl; [|done].
  intros _. simpl in IH2. by rewrite (IH2 _ E).
Qed.

(** X2 on a report cut after the header of [.text]. *)
Lemma getSections_header_without_flags_witness :
  getSections headers_cut = Throws TypeError.
Proof.
  refine (getSections_header_without_flags headers_cut ["Sections:"]
            "  0 .text         00000100  00001000  00001000  00000034  2**1" [] _
            eq_refl eq_refl eq_refl _).
  reflexivity.
Defined.

(** ** The constructor *)

(** X3. A table that the constructor returns was read from two runs of
    objdump that both exited with status 0; it has at least one Section,
    every Section has address 0 and every symbol has base 0. *)
Theorem new_SymbolTable_fresh headers syms t :
  new_SymbolTable headers syms = Returns t →
  status headers = Some 0
  ∧ status syms = Some 0
  ∧ sections t ≠ []
  ∧ (∀ s, s ∈ sections t → Sec.address s = 0)
  ∧ (∀ s, s ∈ symbols t → Sym.base s = 0).
Proof.
  intros [Hsecs Hsyms]%new_SymbolTable_Returns.
  assert (Hst : status headers = Some 0).
  { revert Hsecs. unfold getSections. case_bool_decide as H; [done|].
    intros _. destruct (decide (status headers = Some 0)); [done | by destruct H]. }
  assert (H2 : status syms = Some 0 ∧ sections t ≠ []).
  { revert Hsyms. unfold getSymbols.
    case_bool_decide as H1; [done|]. case_bool_decide as H2; [done|].
    intros _. split; [|by intros Hnil; rewrite Hnil in H1].
    destruct (decide (status syms = Some 0)); [done | by destruct H2]. }
  destruct H2 as [Hst' Hne]. split_and!; try done.
  - intros s Hs. by destruct (getSections_Forall _ _ Hsecs s Hs) as [? _].
  - apply getSymbols_Returns in Hsyms as (st & E & ->).
    apply decodeLines_Returns in E as (ext & -> & Hext). simpl.
    intros s Hs. rewrite Forall_forall in Hext. by apply Hext.
Qed.

(** X3 on the scenario. *)
Lemma new_SymbolTable_fresh_witness :
  status headers_foo = Some 0
  ∧ status objdump_foo = Some 0
  ∧ [text_section 0x34 2] ≠ []
  ∧ (∀ s, s ∈ [text_section 0x34 2] → Sec.address s = 0)
  ∧ (∀ s, s ∈ [foo] → Sym.base s = 0).
Proof.
  exact (new_SymbolTable_fresh headers_foo objdump_foo
           {| symbols := [foo]; sections := [text_section 0x34 2] |} eq_refl).
Defined.

(** X4. The order of the failures of the constructor. When the run for the
    section headers exits with a status other than 0 the constructor throws
    the error of objdump, whatever the second run gave. When that run exits
    with 0 and no line of its report is a section header, the constructor
    throws "call getSections() before getSymbols()!", also when the run for
    the symbols failed: [getSymbols] tests the table before it reads the
    status. *)
Theorem new_SymbolTable_failures headers syms :
  (status headers ≠ Some 0 → new_SymbolTable headers syms = Throws ObjdumpFailed)
  ∧ (status headers = Some 0 →
     (∀ line, line ∈ splitLF (removeCR (stdout headers)) → matchSection line = None) →
     new_SymbolTable headers syms = Throws SectionsNotLoaded).
Proof.
  unfold new_SymbolTable, getSections. split.
  - intros Hst. by rewrite bool_decide_eq_true_2.
  - intros Hst Hnone. rewrite bool_decide_eq_false_2 by (by intros []).
    assert (Hread : readSections (splitLF (removeCR (stdout headers))) = Returns []).
    { revert Hnone. generalize (splitLF (removeCR (stdout headers))).
      intros lines. induction lines as [|l lines IH]; intros Hnone; [done|].
      simpl. rewrite (Hnone l) by left. apply IH. intros ? ?. apply Hnone. by right. }
    by rewrite Hread.
Qed.

(** X4 on a run that failed, and on a report without headers followed by a
    failed run for the symbols. *)
Lemma new_SymbolTable_failures_witness :
  new_SymbolTable {| status := None; stdout := "" |} objdump_foo
  = Throws ObjdumpFailed
  ∧ new_SymbolTable {| status := Some 0; stdout := "a.elf:     file format elf32-m68k" |}
                    {| status := Some 1; stdout := "" |}
    = Throws SectionsNotLoaded.
Proof.
  split.
  - by apply (proj1 (new_SymbolTable_failures _ _)).
  - apply (proj2 (new_SymbolTable_failures _ _)); [reflexivity|].
    intros line [->|[]%elem_of_nil]%elem_of_cons. reflexivity.
Defined.

(** ** [getSymbols] *)

Lemma matchSymbol_spec line m :
  matchSymbol line = Some m →
  String.length (m1 m) = 8%nat
  ∧ Forall (λ c, isHexDigit c = true) (String.list_ascii_of_string (m1 m))
  ∧ m9 m ≠ ""
  ∧ Forall (λ c, isWhiteSpace c = false) (String.list_ascii_of_string (m9 m))
  ∧ Forall (λ c, isHexDigit c = true) (String.list_ascii_of_string (m10 m)).
Proof.
  unfold matchSymbol. intros Hm. step_match Hm. injection Hm as <-. simpl.
  repeat match goal with
  | E : Regex.exactly _ _ _ = Some _ |- _ =>
      apply exactly_spec in E as (? & ? & _)
  | E : Regex.many1 isHexDigit _ = Some _ |- _ =>
      apply many1_spec in E as (? & ? & _)
  | E : Regex.many1 (λ c, negb (isWhiteSpace c)) _ = Some _ |- _ =>
      apply many1_spec in E as (? & ? & _)
  end.
  split_and!; try done.
  match goal with
  | H : Forall (λ c, negb (isWhiteSpace c) = true) _ |- _ =>
      eapply Forall_impl; [exact H|]
  end.
  intros c. simpl. by destruct (isWhiteSpace c).
Qed.

Lemma decodeMatch_symbol secs st line m st' :
  matchSymbol line = Some m →
  decodeMatch secs st m = Returns st' →
  ∃ sym, pushed st' = pushed st ++ [sym] ∧ decodes secs m sym ∧ wellFiled sym.
Proof.
  intros (_ & _ & _ & _ & [Hsize _]%parseInt16_bound)%matchSymbol_spec.
  unfold decodeMatch, decodes, wellFiled, symbolName, sectionNameOf.
  set (cf := if _ && _ then _ else currentFile st).
  set (scope0 := default SymbolScope.Neither (SCOPE_MAP !! m2 m)).
  destruct (startsWith _ _);
    (case_match eqn:Hthrow; [done|]; intros [= <-];
     eexists; split; [reflexivity|]; simpl; split; [split_and!; try done; lia|];
     destruct (bool_decide (scope0 = SymbolScope.Local)) eqn:Hl; simpl;
     [ destruct (isFalsy cf || bool_decide (cf = Some "<artificial>")) eqn:Hf; simpl;
       [ done
       | rewrite Hl; apply orb_false_iff in Hf as [Hf1 Hf2];
         apply bool_decide_eq_true in Hl; apply bool_decide_eq_false in Hf2;
         destruct cf as [f|]; [|done]; simpl in Hf1;
         apply bool_decide_eq_false in Hf1; split_and!; try done;
         by intros -> ]
     | rewrite Hl; by apply bool_decide_eq_false in Hl ]).
Qed.

(** The loop pushes one Symbol for each line that matches, in order. *)
Lemma decodeLines_Forall2 (R : SymbolMatch → Sym.t → Prop) secs :
  (∀ st line m st',
     matchSymbol line = Some m → decodeMatch secs st m = Returns st' →
     ∃ sym, pushed st' = pushed st ++ [sym] ∧ R m sym) →
  ∀ lines st st',
    decodeLines secs st lines = Returns st' →
    ∃ ext, pushed st' = pushed st ++ ext
           ∧ Forall2 R (omap matchSymbol lines) ext.
Proof.
  intros HR lines. induction lines as [|l lines IH]; intros st st'; simpl.
  { intros [= <-]. exists []. by rewrite app_nil_r. }
  unfold decodeLine. destruct (matchSymbol l) as [m|] eqn:Hm; simpl; [|apply IH].
  destruct (decodeMatch secs st m) as [st1|] eqn:E; simpl; [|done].
  destruct (HR _ _ _ _ Hm E) as (sym & Hpush & Hsym).
  intros (ext & -> & Hext)%IH. exists (sym :: ext). rewrite Hpush.
  split; [by rewrite <- app_assoc | by constructor].
Qed.

(** X5. When [getSymbols] returns, it has pushed exactly one Symbol for each
    line of the report that matches the expression of a symbol line, in the
    order of the report, and none for any other line; the section and name of
    each Symbol are those of its line, its size is not negative and is the
    size of its line whenever that size is below 2^53, and its address plus
    the lma of the first Section of that name (plus 0 when there is none) is
    the raw address of the line. *)
Theorem getSymbols_one_per_line secs objdump syms :
  getSymbols secs objdump = Returns syms →
  Forall2 (decodes secs)
          (omap matchSymbol (splitLF (removeCR (stdout objdump)))) syms.
Proof.
  intros (st & Hscan & ->)%getSymbols_Returns.
  destruct (decodeLines_Forall2 (decodes secs) secs) with (2 := Hscan)
    as (ext & -> & Hext); [|done].
  intros st0 line m st' Hm E.
  destruct (decodeMatch_symbol secs st0 line m st' Hm E) as (sym & ? & ? & _).
  by exists sym.
Qed.

(** X5 on the report of a link-time-optimized unit: two lines match, the
    header line does not. *)
Lemma getSymbols_one_per_line_witness :
  Forall2 (decodes [text_section 0x34 2])
    (omap matchSymbol ["SYMBOL TABLE:"; artificial_line; local_line; ""])
    [Sym.mk 0 0 SymbolType.File SymbolScope.Global "*ABS*" 0 "<artificial>" None None false;
     foo].
Proof.
  exact (getSymbols_one_per_line [text_section 0x34 2] objdump_lto _ eq_refl).
Defined.

Lemma getSymbols_Forall (P : Sym.t → Prop) secs :
  (∀ line m sym, matchSymbol line = Some m → decodes secs m sym → wellFiled sym → P sym) →
  ∀ objdump syms, getSymbols secs objdump = Returns syms → Forall P syms.
Proof.
  intros HP objdump syms (st & Hscan & ->)%getSymbols_Returns.
  destruct (decodeLines_Forall2 (λ _ sym, P sym) secs) with (2 := Hscan)
    as (ext & -> & Hext).
  - intros st0 line m st' Hm E.
    destruct (decodeMatch_symbol secs st0 line m st' Hm E) as (sym & ? & ? & ?).
    exists sym. split; [done|]. by eapply HP.
  - simpl. clear -Hext. induction Hext; by constructor.
Qed.

(** What holds of the symbols that the constructor returns, and is kept when
    a base changes, holds in every table a program can hold. *)
Lemma reachable_symbols_Forall (P : Sym.t → Prop) :
  (∀ s b, P s → P (Sym.with_base s b)) →
  (∀ headers syms t, new_SymbolTable headers syms = Returns t → Forall P (symbols t)) →
  ∀ t, reachable t → Forall P (symbols t).
Proof.
  intros Hbase Hnew t Hreach.
  assert (Hstep : ∀ secs syms, Forall P syms → Forall P (updateBases secs syms)).
  { intros secs syms Hsyms. unfold updateBases. apply Forall_fmap.
    eapply Forall_impl; [exact Hsyms|]. intros s Hs. simpl. unfold updateBase.
    destruct (find _ secs); [by apply Hbase | done]. }
  induction Hreach as [headers syms t H|rs t _ IH|off t _ IH].
  - by eapply Hnew.
  - by apply Hstep.
  - by apply Hstep.
Qed.

Lemma reachable_Forall_wellFiled t : reachable t → Forall wellFiled (symbols t).
Proof.
  revert t. apply reachable_symbols_Forall.
  - by intros [] b.
  - intros headers syms t [_ Hsyms]%new_SymbolTable_Returns.
    revert Hsyms. by apply getSymbols_Forall.
Qed.

(** X6. In every table built by the constructor, relocated or not, a symbol
    has a file exactly when its scope is Local, and the file of a Local
    symbol is neither the empty string nor "<artificial>". *)
Theorem reachable_wellFiled t :
  reachable t →
  ∀ s, s ∈ symbols t →
    (Sym.scope s = SymbolScope.Local ↔ Sym.file s ≠ None)
    ∧ Sym.file s ≠ Some ""
    ∧ Sym.file s ≠ Some "<artificial>".
Proof.
  intros Hreach%reachable_Forall_wellFiled s Hs.
  rewrite Forall_forall in Hreach. specialize (Hreach s Hs). revert Hreach.
  unfold wellFiled. destruct (Sym.file s) as [f|].
  - intros (Hl & ? & ?). repeat split; try done; congruence.
  - intros Hl. repeat split; try done; congruence.
Qed.

(** X6 on the table of the scenario. *)
Lemma reachable_wellFiled_witness :
  (Sym.scope foo = SymbolScope.Local ↔ Sym.file foo ≠ None)
  ∧ Sym.file foo ≠ Some ""
  ∧ Sym.file foo ≠ Some "<artificial>".
Proof.
  apply (reachable_wellFiled {| symbols := [foo]; sections := [text_section 0x34 2] |}
           (reachable_new headers_foo objdump_foo _ eq_refl)).
  apply (bool_decide_unpack _). vm_compute. exact I.
Defined.

(** X7. In every table built by the constructor, relocated or not, the name
    of a symbol has no white space at either end, and its section is not
    empty and holds no white space at all. *)
Theorem reachable_names_trimmed t :
  reachable t →
  ∀ s, s ∈ symbols t →
    trim (Sym.name s) = Sym.name s
    ∧ Sym.section s ≠ ""
    ∧ Forall (λ c, isWhiteSpace c = false) (String.list_ascii_of_string (Sym.section s)).
Proof.
  intros Hreach. apply Forall_forall. revert t Hreach.
  apply reachable_symbols_Forall.
  - by intros [] b.
  - intros headers syms t [_ Hsyms]%new_SymbolTable_Returns.
    revert Hsyms. apply getSymbols_Forall.
    intros line m sym (_ & _ & Hne & Hws & _)%matchSymbol_spec (Hsec & Hname & _) _.
    rewrite Hsec, Hname. unfold sectionNameOf. rewrite (trim_id _ Hws).
    split; [|done]. unfold symbolName.
    destruct (startsWith _ _); apply trim_idemp.
Qed.

(** X7 on the table of the scenario. *)
Lemma reachable_names_trimmed_witness :
  trim (Sym.name foo) = Sym.name foo
  ∧ Sym.section foo ≠ ""
  ∧ Forall (λ c, isWhiteSpace c = false) (String.list_ascii_of_string (Sym.section foo)).
Proof.
  apply (reachable_names_trimmed
           {| symbols := [foo]; sections := [text_section 0x34 2] |}
           (reachable_new headers_foo objdump_foo _ eq_refl)).
  apply (bool_decide_unpack _). vm_compute. exact I.
Defined.

(** X8. In every table built by the constructor, relocated or not, the size
    of a symbol is not negative and its address lies strictly between -2^32
    and 2^32: the raw address of its line and the lma of its Section are both
    read from eight hexadecimal digits. *)
Theorem reachable_symbol_bounds t :
  reachable t →
  ∀ s, s ∈ symbols t → 0 ≤ Sym.size s ∧ - 2 ^ 32 < Sym.address s < 2 ^ 32.
Proof.
  intros Hreach. apply Forall_forall. revert t Hreach.
  apply reachable_symbols_Forall.
  - by intros [] b.
  - intros headers syms t [Hsecs Hsyms]%new_SymbolTable_Returns.
    revert Hsyms. apply getSymbols_Forall.
    intros line m sym (Hlen & Hraw%parseInt16_bound & _)%matchSymbol_spec
      (_ & _ & Hsize & _ & Haddr) _.
    rewrite Hlen in Hraw. change (16 ^ Z.of_nat 8) with (2 ^ 32) in Hraw.
    split; [done|].
    destruct (find _ (sections t)) as [sec|] eqn:E; simpl in Haddr; [|lia].
    apply find_Some in E as [Hin _].
    destruct (getSections_Forall _ _ Hsecs sec Hin) as (_ & _ & _ & _ & _ & Hlma & _).
    lia.
Qed.

(** X8 on the table of the scenario. *)
Lemma reachable_symbol_bounds_witness :
  0 ≤ Sym.size foo ∧ - 2 ^ 32 < Sym.address foo < 2 ^ 32.
Proof.
  apply (reachable_symbol_bounds
           {| symbols := [foo]; sections := [text_section 0x34 2] |}
           (reachable_new headers_foo objdump_foo _ eq_refl)).
  apply (bool_decide_unpack _). vm_compute. exact I.
Defined.

(** ** More on relocation *)

Lemma updateBase_with_base secs s :
  updateBase secs s = Sym.with_base s (Sym.base (updateBase secs s)).
Proof. unfold updateBase. destruct (find _ secs); by destruct s. Qed.

(** X9. Neither relocation method adds, removes or reorders a Section or a
    Symbol, and neither changes any field of a Section but its address, nor
    any field of a Symbol but its base. *)
Theorem relocation_changes_address_and_base_only t t' :
  (∃ rs, t' = relocate rs t) ∨ (∃ off, t' = relocateWithOffset off t) →
  Forall2 (λ s s', s' = Sec.with_address s (Sec.address s')) (sections t) (sections t')
  ∧ Forall2 (λ s s', s' = Sym.with_base s (Sym.base s')) (symbols t) (symbols t').
Proof.
  intros Hcall. split.
  - destruct Hcall as [[rs ->]|[off ->]]; simpl.
    + apply Forall2_same_length_lookup. split.
      * pose proof (f_equal length (relocateSections_names rs (sections t))) as H.
        by rewrite !length_fmap in H.
      * intros i s s' Hs Hs'.
        destruct (relocateSections_lookup rs _ i s Hs) as [[a Ha] _].
        rewrite Ha in Hs'. by injection Hs' as <-.
    + apply Forall2_fmap_r, Forall_Forall2_diag, Forall_forall.
      intros s _. simpl. destruct (isLoaded s); [done|]. by rewrite with_address_id.
  - assert (H : ∀ secs, Forall2 (λ s s', s' = Sym.with_base s (Sym.base s'))
                          (symbols t) (updateBases secs (symbols t))).
    { intros secs. apply Forall2_fmap_r, Forall_Forall2_diag, Forall_forall.
      intros s _. simpl. apply updateBase_with_base. }
    destruct Hcall as [[rs ->]|[off ->]]; apply H.
Qed.

(** X9 on the table of the scenario. *)
Lemma relocation_changes_address_and_base_only_witness :
  let t := {| symbols := [foo]; sections := [text_section 0x34 2] |} in
  let t' := relocateWithOffset 0x8000 t in
  Forall2 (λ s s', s' = Sec.with_address s (Sec.address s')) (sections t) (sections t')
  ∧ Forall2 (λ s s', s' = Sym.with_base s (Sym.base s')) (symbols t) (symbols t').
Proof.
  intros t t'.
  exact (relocation_changes_address_and_base_only t t'
           (or_intror (ex_intro _ 0x8000 eq_refl))).
Defined.

(** The second loop forgets what an earlier run of it wrote, when the two
    tables of Sections bear the same names. *)
Lemma updateBases_absorb secs1 secs2 syms :
  Sec.name <$> secs1 = Sec.name <$> secs2 →
  updateBases secs2 (updateBases secs1 syms) = updateBases secs2 syms.
Proof.
  intros Hnames. unfold updateBases. rewrite <- list_fmap_compose.
  apply list_fmap_ext. intros _ s _. simpl.
  unfold updateBase at 1. rewrite updateBase_section.
  destruct (find _ secs2) as [sec2|] eqn:E2.
  - unfold updateBase. rewrite E2. by destruct (find _ secs1).
  - unfold updateBase. rewrite E2.
    destruct (find _ secs1) as [sec1|] eqn:E1; [|done].
    assert (is_Some (find (λ x, Sec.name x = Sym.section s) secs2)) as [? ?].
    { apply find_name_is_Some. rewrite <- Hnames. apply find_name_is_Some.
      by rewrite E1. }
    congruence.
Qed.

(** X10. Two calls of [relocate] in a row amount to one call with the two
    lists joined. *)
Theorem relocate_relocate rs1 rs2 t :
  relocate rs2 (relocate rs1 t) = relocate (rs1 ++ rs2) t.
Proof.
  unfold relocate. simpl. rewrite fold_left_app. f_equal.
  apply updateBases_absorb. by rewrite !relocateSections_names.
Qed.

Lemma relocateWithOffset_moved off t :
  relocateWithOffset off t
  = {| symbols := updateBases (moved off <$> sections t) (symbols t);
       sections := moved off <$> sections t |}.
Proof. done. Qed.

Lemma moved_name off s : Sec.name (moved off s) = Sec.name s.
Proof. unfold moved. by destruct (isLoaded s). Qed.

Lemma moved_moved off1 off2 s : moved off2 (moved off1 s) = moved off2 s.
Proof.
  unfold moved. destruct (isLoaded s) eqn:E; [|by rewrite E].
  unfold isLoaded in *. simpl. by rewrite E.
Qed.

(** X11. Offsets do not add up: after two calls of [relocateWithOffset] in a
    row the table is as after the second call alone. *)
Theorem relocateWithOffset_relocateWithOffset off1 off2 t :
  relocateWithOffset off2 (relocateWithOffset off1 t) = relocateWithOffset off2 t.
Proof.
  rewrite !relocateWithOffset_moved. simpl.
  assert (Hsecs : moved off2 <$> (moved off1 <$> sections t) = moved off2 <$> sections t).
  { rewrite <- list_fmap_compose. apply list_fmap_ext. intros _ s _.
    apply moved_moved. }
  rewrite Hsecs. f_equal. apply updateBases_absorb.
  rewrite <- !list_fmap_compose. apply list_fmap_ext. intros _ s _.
  simpl. by rewrite !moved_name.
Qed.

Lemma relocateSection_unknown secs r :
  Sec.name r ∉ Sec.name <$> secs → relocateSection secs r = secs.
Proof.
  intros Hr. unfold relocateSection.
  destruct (list_find _ secs) as [[i s]|] eqn:E; [|done].
  exfalso. apply Hr. apply list_find_Some in E as (Hi & <- & _).
  apply list_elem_of_fmap. exists s. split; [done|].
  by eapply list_elem_of_lookup_2.
Qed.

(** X12. A pair that names no Section of the table is ignored: when no name
    of the list is the name of a Section, [relocate] leaves every Section as
    it is, and only brings the bases of the symbols in line with the Sections
    as they are. *)
Theorem relocate_unknown_names rs t :
  (∀ r, r ∈ rs → Sec.name r ∉ Sec.name <$> sections t) →
  sections (relocate rs t) = sections t
  ∧ symbols (relocate rs t) = updateBases (sections t) (symbols t).
Proof.
  intros Hrs.
  assert (H : fold_left relocateSection rs (sections t) = sections t).
  { revert Hrs. generalize (sections t). intros secs.
    induction rs as [|r rs IH]; intros Hrs; [done|]. simpl.
    rewrite relocateSection_unknown by (apply Hrs; left).
    apply IH. intros ? ?. apply Hrs. by right. }
  unfold relocate. simpl. by rewrite H.
Qed.

(** X12 on the table of the scenario, for a pair that names [.bss]. *)
Lemma relocate_unknown_names_witness :
  let t := {| symbols := [foo]; sections := [text_section 0x34 2] |} in
  let rs := [Sec.mk ".bss" 0x7000 0 0 0 0 1 []] in
  sections (relocate rs t) = sections t
  ∧ symbols (relocate rs t) = updateBases (sections t) (symbols t).
Proof.
  intros t rs. apply (relocate_unknown_names rs t).
  intros r Hr. apply elem_of_cons in Hr as [->|Hr].
  - apply (bool_decide_unpack _). vm_compute. exact I.
  - by apply elem_of_nil in Hr.
Defined.

Lemma lastAddress_app n rs1 rs2 a :
  lastAddress n (rs1 ++ rs2) a = lastAddress n rs2 (lastAddress n rs1 a).
Proof. unfold lastAddress. apply fold_left_app. Qed.

Lemma lastAddress_other n rs a :
  (∀ x, x ∈ rs → Sec.name x ≠ n) → lastAddress n rs a = a.
Proof.
  revert a. induction rs as [|r rs IH]; intros a Hrs; [done|].
  unfold lastAddress. cbn [fold_left]. fold (lastAddress n).
  rewrite decide_False by (apply Hrs; left).
  apply IH. intros ? ?. apply Hrs. by right.
Qed.

Lemma relocateSections_find rs secs r s :
  ∀ pre post,
    rs = pre ++ r :: post →
    (∀ x, x ∈ post → Sec.name x ≠ Sec.name r) →
    find (λ x, Sec.name x = Sec.name r) secs = Some s →
    find (λ x, Sec.name x = Sec.name r) (fold_left relocateSection rs secs)
    = Some (Sec.with_address s (Sec.address r)).
Proof.
  revert rs. induction secs as [|x secs IH]; intros rs pre post -> Hpost; [done|].
  rewrite relocateSections_cons, !find_cons. simpl.
  destruct (decide (Sec.name x = Sec.name r)) as [Hx|Hx].
  - intros [= <-]. f_equal. f_equal.
    rewrite Hx, (lastAddress_app _ pre (r :: post)).
    unfold lastAddress at 1. cbn [fold_left]. fold (lastAddress (Sec.name r)).
    rewrite decide_True by done. by apply lastAddress_other.
  - intros Hfind.
    apply (IH _ (filter (λ y, Sec.name y ≠ Sec.name x) pre)
                (filter (λ y, Sec.name y ≠ Sec.name x) post)); [| |done].
    + rewrite filter_app, filter_cons_True; [done|]. by intros Heq; apply Hx.
    + intros y [_ Hy]%list_elem_of_filter. by apply Hpost.
Qed.

(** X13. The last pair given for a name decides: when [r] is the last element
    of the list that bears its name and the first Section of that name is
    [s], then after [relocate] the first Section of that name is [s] with the
    address of [r]. *)
Theorem relocate_last_pair_wins pre r post t s :
  (∀ x, x ∈ post → Sec.name x ≠ Sec.name r) →
  find (λ x, Sec.name x = Sec.name r) (sections t) = Some s →
  find (λ x, Sec.name x = Sec.name r) (sections (relocate (pre ++ r :: post) t))
  = Some (Sec.with_address s (Sec.address r)).
Proof. intros Hpost Hs. by eapply relocateSections_find. Qed.

(** X13 on the table of the scenario, for two pairs that name [.text]. *)
Lemma relocate_last_pair_wins_witness :
  find (λ x, Sec.name x = ".text")
       (sections (relocate [Sec.with_address (text_section 0x34 2) 0x7000;
                            Sec.with_address (text_section 0x34 2) 0x9000]
                    {| symbols := [foo]; sections := [text_section 0x34 2] |}))
  = Some (Sec.with_address (text_section 0x34 2) 0x9000).
Proof.
  exact (relocate_last_pair_wins
           [Sec.with_address (text_section 0x34 2) 0x7000]
           (Sec.with_address (text_section 0x34 2) 0x9000) []
           {| symbols := [foo]; sections := [text_section 0x34 2] |}
           (text_section 0x34 2)
           (λ x Hx, match proj1 (elem_of_nil x) Hx with end) eq_refl).
Defined.

Lemma relocateSection_shadowed secs r i j s :
  secs !! i = Some s → (j < i)%nat →
  (Sec.name <$> secs) !! j = Some (Sec.name s) →
  relocateSection secs r !! i = Some s.
Proof.
  intros Hi Hlt Hj. unfold relocateSection.
  destruct (list_find _ secs) as [[k y]|] eqn:E; [|done].
  apply list_find_Some in E as (Hk & Hy & Hmin).
  destruct (decide (k = i)) as [->|Hne]; [|by rewrite list_lookup_insert_ne].
  exfalso. rewrite Hi in Hk. injection Hk as <-.
  rewrite list_lookup_fmap in Hj.
  destruct (secs !! j) as [z|] eqn:Hz; [|done]. injection Hj as Hj.
  apply (Hmin j z Hz Hlt). by rewrite Hj.
Qed.

(** X14. Only the first Section of a name is ever relocated: a Section that
    comes after another Section of the same name keeps its address through
    [relocate], whatever the list. *)
Theorem relocate_skips_later_namesakes rs t i j s :
  sections t !! i = Some s → (j < i)%nat →
  (Sec.name <$> sections t) !! j = Some (Sec.name s) →
  sections (relocate rs t) !! i = Some s.
Proof.
  unfold relocate. simpl. generalize (sections t). intros secs. revert secs.
  induction rs as [|r rs IH]; intros secs Hi Hlt Hj; [done|]. simpl.
  apply IH; [by eapply relocateSection_shadowed | done |].
  by rewrite relocateSection_names.
Qed.

(** X14 on a table with two Sections named [.text]. *)
Lemma relocate_skips_later_namesakes_witness :
  sections (relocate [Sec.with_address (text_section 0x34 2) 0x9000]
              {| symbols := [foo];
                 sections := [text_section 0x34 2; text_section 0x134 4] |})
    !! 1%nat
  = Some (text_section 0x134 4).
Proof.
  exact (relocate_skips_later_namesakes
           [Sec.with_address (text_section 0x34 2) 0x9000]
           {| symbols := [foo];
              sections := [text_section 0x34 2; text_section 0x134 4] |}
           1 0 (text_section 0x134 4) eq_refl (Nat.lt_0_1) eq_refl).
Defined.

Lemma find_moved off n secs :
  find (λ x, Sec.name x = n) (moved off <$> secs)
  = moved off <$> find (λ x, Sec.name x = n) secs.
Proof.
  induction secs as [|x secs IH]; [done|].
  rewrite fmap_cons, !find_cons, moved_name. by case_decide.
Qed.

(** X15. After [relocateWithOffset] a symbol whose Section is found in the
    table has, as its base, the vma of that Section plus the offset when the
    Section is flagged ALLOC and has a size above 0, and otherwise the address
    that the Section had before the call; a symbol whose Section is not found
    is left as it was. *)
Theorem relocateWithOffset_symbol_base off t i sym :
  symbols t !! i = Some sym →
  symbols (relocateWithOffset off t) !! i
  = Some match owningSection t sym with
         | Some sec =>
             Sym.with_base sym (if isLoaded sec then Sec.vma sec + off
                                else Sec.address sec)
         | None => sym
         end.
Proof.
  intros Hi. rewrite relocateWithOffset_moved. simpl.
  rewrite (updateBases_lookup _ _ _ _ Hi). f_equal.
  unfold updateBase, owningSection. rewrite find_moved.
  destruct (find _ (sections t)) as [sec|]; simpl; [|done].
  unfold moved. by destruct (isLoaded sec).
Qed.

(** X15 on the table of the scenario. *)
Lemma relocateWithOffset_symbol_base_witness :
  symbols (relocateWithOffset 0x8000
             {| symbols := [foo]; sections := [text_section 0x34 2] |}) !! 0%nat
  = Some (Sym.with_base foo (0x1000 + 0x8000)).
Proof.
  exact (relocateWithOffset_symbol_base 0x8000
           {| symbols := [foo]; sections := [text_section 0x34 2] |} 0 foo eq_refl).
Defined.

(** ** The snapshot handed to [relocate] *)

Lemma snapshotFrom_defined relocatedBases count secs :
  (count + length (loaded secs) ≤ length relocatedBases)%nat →
  Forall2 (λ s o, ∃ a, o = Sec.with_address s (Some a))
          secs (snapshotFrom relocatedBases count secs).
Proof.
  revert count. induction secs as [|s secs IH]; intros count; [constructor|].
  unfold loaded. rewrite filter_cons. fold (loaded secs). simpl.
  destruct (isLoaded s) eqn:E.
  - rewrite decide_True by done. simpl. intros Hlen.
    destruct (relocatedBases !! count) as [a|] eqn:Ea.
    + constructor; [by exists a | apply IH; lia].
    + apply lookup_ge_None in Ea. lia.
  - rewrite decide_False by done. intros Hlen.
    constructor; [by eexists | by apply IH].
Qed.

Lemma relocateSections_head rs x secs :
  Sec.name x ∉ Sec.name <$> rs →
  fold_left relocateSection rs (x :: secs) = x :: fold_left relocateSection rs secs.
Proof.
  intros Hx. rewrite relocateSections_cons.
  rewrite lastAddress_other, with_address_id.
  - f_equal. f_equal. clear -Hx. induction rs as [|r rs IH]; [done|].
    rewrite fmap_cons, not_elem_of_cons in Hx. destruct Hx as [Hr Hrs].
    rewrite filter_cons_True by (by intros Heq; apply Hr). by rewrite IH.
  - intros r Hr Heq. apply Hx. rewrite <- Heq. by apply list_elem_of_fmap_2.
Qed.

(** Addresses given Section by Section, for Sections of distinct names, are
    installed as given. *)
Lemma relocateSections_install rs secs :
  NoDup (Sec.name <$> secs) →
  Forall2 (λ s r, r = Sec.with_address s (Sec.address r)) secs rs →
  fold_left relocateSection rs secs = rs.
Proof.
  intros Hnd Hrs. induction Hrs as [|s r secs rs Hr Hrs IH]; [done|].
  rewrite fmap_cons, NoDup_cons in Hnd. destruct Hnd as [Hs Hnd].
  assert (Hnames : Sec.name <$> rs = Sec.name <$> secs).
  { clear -Hrs. induction Hrs as [|? ? ? ? ->]; [done|].
    rewrite !fmap_cons. f_equal; done. }
  cbn [fold_left]. rewrite relocateSection_cons.
  rewrite decide_True by (by rewrite Hr). rewrite <- Hr.
  rewrite relocateSections_head; [by rewrite IH|].
  rewrite Hnames, Hr. done.
Qed.

(** X16. The snapshot is made to be handed to [relocate]. When the names of
    the Sections are distinct and [getRelocatedSections] returns, every record
    it returns has a number as its address, and [relocate] with these records
    leaves the table with exactly these records as its Sections. *)
Theorem relocate_snapshot relocatedBases t out :
  NoDup (Sec.name <$> sections t) →
  getRelocatedSections relocatedBases t = Returns out →
  out = Store.stored <$> (definite <$> out)
  ∧ sections (relocate (definite <$> out) t) = definite <$> out.
Proof.
  intros Hnd. unfold getRelocatedSections. rewrite snapshot_loop. simpl.
  case_bool_decide as Hc; [done|]. intros [= <-].
  assert (Hlen : length (loaded (sections t)) = length relocatedBases).
  { destruct (decide (length (loaded (sections t)) = length relocatedBases));
      [done | by destruct Hc]. }
  pose proof (snapshotFrom_defined relocatedBases 0 (sections t)) as Hdef.
  specialize (Hdef ltac:(simpl; lia)). split.
  - rewrite <- list_fmap_compose. rewrite <- (list_fmap_id (snapshotFrom _ _ _)) at 1.
    apply list_fmap_ext. intros i o Ho.
    destruct (Forall2_lookup_r _ _ _ _ _ Hdef Ho) as (s & _ & a & ->). done.
  - unfold relocate. simpl. apply relocateSections_install; [done|].
    apply Forall2_fmap_r. eapply Forall2_impl; [exact Hdef|].
    intros s o [a ->]. done.
Qed.

(** X16 on a table with [.text], [.comment] and [.data]. *)
Lemma relocate_snapshot_witness :
  let t := {| symbols := [foo];
              sections := [text_section 0 2; comment_section; data_section] |} in
  let out := [Sec.with_address (text_section 0 2) (Some 0x9000);
              Sec.with_address comment_section (Some 0);
              Sec.with_address data_section (Some 0xa000)] in
  out = Store.stored <$> (definite <$> out)
  ∧ sections (relocate (definite <$> out) t) = definite <$> out.
Proof.
  intros t out. apply (relocate_snapshot [0x9000; 0xa000] t out); [|reflexivity].
  apply (bool_decide_unpack _). vm_compute. exact I.
Defined.

(** ** Queries and relocation *)

Lemma filter_updateBase (P : Sym.t → Prop) `{∀ s, Decision (P s)} secs syms :
  (∀ s, P (updateBase secs s) ↔ P s) →
  filter P (updateBases secs syms) = updateBases secs (filter P syms).
Proof.
  intros HP. unfold updateBases. induction syms as [|s syms IH]; [done|].
  rewrite fmap_cons, !filter_cons.
  destruct (decide (P (updateBase secs s))) as [Hs|Hs];
    destruct (decide (P s)) as [Hs'|Hs']; rewrite IH; try done.
  - destruct Hs'. by apply (proj1 (HP s)).
  - destruct Hs. by apply (proj2 (HP s)).
Qed.

Lemma updateBase_fields secs s :
  Sym.address (updateBase secs s) = Sym.address s
  ∧ Sym.type (updateBase secs s) = Sym.type s
  ∧ Sym.scope (updateBase secs s) = Sym.scope s
  ∧ Sym.size (updateBase secs s) = Sym.size s
  ∧ Sym.name (updateBase secs s) = Sym.name s
  ∧ Sym.file (updateBase secs s) = Sym.file s.
Proof. unfold updateBase. by destruct (find _ secs). Qed.

Lemma head_updateBases secs syms :
  head (updateBases secs syms) = updateBase secs <$> head syms.
Proof. by destruct syms. Qed.

(** X17. Relocation does not change what the queries that do not read [base]
    find: after either relocation method, [getFunctionAtAddress] for a static
    address, [getFunctionByName], [getFunctionSymbols], [getGlobalVariables]
    and [getStaticVariables] return the symbols they returned before, with
    the new bases. *)
Theorem static_queries_after_relocation t t' :
  (∃ rs, t' = relocate rs t) ∨ (∃ off, t' = relocateWithOffset off t) →
  (∀ address, getFunctionAtAddress address false t'
              = updateBase (sections t') <$> getFunctionAtAddress address false t)
  ∧ (∀ name file, getFunctionByName name file t'
                  = updateBase (sections t') <$> getFunctionByName name file t)
  ∧ getFunctionSymbols t' = updateBases (sections t') (getFunctionSymbols t)
  ∧ getGlobalVariables t' = updateBases (sections t') (getGlobalVariables t)
  ∧ (∀ file, getStaticVariables file t'
             = updateBases (sections t') (getStaticVariables file t)).
Proof.
  intros Hcall.
  assert (Hsyms : symbols t' = updateBases (sections t') (symbols t)).
  { by destruct Hcall as [[rs ->]|[off ->]]. }
  generalize dependent (sections t'). intros secs Hsyms.
  unfold getFunctionAtAddress, getFunctionByName, getFunctionSymbols,
    getGlobalVariables, getStaticVariables, effectiveAddress.
  rewrite Hsyms.
  split_and!; intros;
    repeat (rewrite filter_updateBase;
            [|intros s; destruct (updateBase_fields secs s)
                          as (Ha & Ht & Hsc & Hsz & Hn & Hf);
              rewrite ?Ha, ?Ht, ?Hsc, ?Hsz, ?Hn, ?Hf; done]);
    rewrite ?head_updateBases; try done.
  unfold updateBases. rewrite !length_fmap.
  repeat case_bool_decide; done.
Qed.

(** X17 on the table of the scenario. *)
Lemma static_queries_after_relocation_witness :
  let t := {| symbols := [foo]; sections := [text_section 0x34 2] |} in
  let t' := relocateWithOffset 0x8000 t in
  (∀ address, getFunctionAtAddress address false t'
              = updateBase (sections t') <$> getFunctionAtAddress address false t)
  ∧ (∀ name file, getFunctionByName name file t'
                  = updateBase (sections t') <$> getFunctionByName name file t)
  ∧ getFunctionSymbols t' = updateBases (sections t') (getFunctionSymbols t)
  ∧ getGlobalVariables t' = updateBases (sections t') (getGlobalVariables t)
  ∧ (∀ file, getStaticVariables file t'
             = updateBases (sections t') (getStaticVariables file t)).
Proof.
  intros t t'.
  exact (static_queries_after_relocation t t' (or_intror (ex_intro _ 0x8000 eq_refl))).
Defined.

(** ** The queries *)

Lemma find_first {A} (P : A → Prop) `{∀ x, Decision (P x)} (l : list A) x :
  find P l = Some x →
  ∃ pre post, l = pre ++ x :: post ∧ P x ∧ ∀ y, y ∈ pre → ¬ P y.
Proof.
  induction l as [|z l IH]; [done|]. rewrite find_cons. case_decide as Hz.
  - intros [= ->]. exists [], l. split_and!; [done|done|].
    by intros ? ?%elem_of_nil.
  - intros (pre & post & -> & Hx & Hpre)%IH. exists (z :: pre), post.
    split_and!; [done|done|]. intros y [->|Hy]%elem_of_cons; [done|by apply Hpre].
Qed.

Lemma getFunctionAtAddress_find address relocated t :
  getFunctionAtAddress address relocated t
  = find (containsAddress address relocated) (symbols t).
Proof. unfold getFunctionAtAddress. apply head_filter. Qed.

(** X18. [getFunctionAtAddress] returns null exactly when no symbol of the
    table is a Function whose range holds the address; when ranges overlap it
    returns the first such symbol in the order of the table. *)
Theorem getFunctionAtAddress_first address relocated t :
  (getFunctionAtAddress address relocated t = None ↔
   ∀ s, s ∈ symbols t → ¬ containsAddress address relocated s)
  ∧ (∀ s, getFunctionAtAddress address relocated t = Some s →
       ∃ pre post,
         symbols t = pre ++ s :: post
         ∧ containsAddress address relocated s
         ∧ ∀ x, x ∈ pre → ¬ containsAddress address relocated x).
Proof.
  rewrite getFunctionAtAddress_find. split.
  - apply find_None.
  - intros s. apply find_first.
Qed.

(** X18 on two functions that overlap: the first one listed is returned. *)
Lemma getFunctionAtAddress_first_witness :
  ∃ pre post,
    [helper_local 0x40 0x40; foo] = pre ++ helper_local 0x40 0x40 :: post
    ∧ containsAddress 0x55 false (helper_local 0x40 0x40)
    ∧ ∀ x, x ∈ pre → ¬ containsAddress 0x55 false x.
Proof.
  exact (proj2 (getFunctionAtAddress_first 0x55 false
                  {| symbols := [helper_local 0x40 0x40; foo];
                     sections := [text_section 0x34 2] |})
           (helper_local 0x40 0x40) eq_refl).
Defined.

Lemma getFunctionByName_find name file t :
  getFunctionByName name file t
  = match find (isLocalFunction name file) (symbols t) with
    | Some s => Some s
    | None => find (isOtherFunction name) (symbols t)
    end.
Proof.
  unfold getFunctionByName.
  fold (isLocalFunction name file) (isOtherFunction name).
  rewrite <- !head_filter, head_if_nonempty.
  destruct (filter (isLocalFunction name file) (symbols t)) as [|s l] eqn:E.
  - by rewrite bool_decide_eq_false_2 by (simpl; lia).
  - by rewrite bool_decide_eq_true_2 by done.
Qed.

(** X19. What [getFunctionByName] returns is a Function symbol of the table
    with the name asked for, and when it is Local its file is the file asked
    for. It returns null exactly when every Function of that name in the
    table is Local to a file other than the one asked for. *)
Theorem getFunctionByName_sound name file t :
  (∀ s, getFunctionByName name file t = Some s →
        s ∈ symbols t
        ∧ Sym.type s = SymbolType.Function
        ∧ Sym.name s = name
        ∧ (Sym.scope s = SymbolScope.Local → sameFile (Sym.file s) file))
  ∧ (getFunctionByName name file t = None ↔
     ∀ s, s ∈ symbols t → Sym.type s = SymbolType.Function → Sym.name s = name →
          Sym.scope s = SymbolScope.Local ∧ ¬ sameFile (Sym.file s) file).
Proof.
  rewrite getFunctionByName_find. split.
  - intros s.
    destruct (find (isLocalFunction name file) (symbols t)) as [l|] eqn:El.
    + intros [= <-]. apply find_Some in El as (? & ? & ? & ? & ?). done.
    + intros (? & ? & ? & ?)%find_Some. done.
  - destruct (find (isLocalFunction name file) (symbols t)) as [l|] eqn:El.
    + split; [done|]. intros Hall.
      apply find_Some in El as (Hin & Ht & Hl & Hn & Hf).
      by destruct (Hall l Hin Ht Hn) as [_ Hnot].
    + rewrite find_None. rewrite find_None in El. split.
      * intros Hother s Hin Ht Hn.
        destruct (decide (Sym.scope s = SymbolScope.Local)) as [Hl|Hl].
        -- split; [done|]. intros Hf. by apply (El s Hin).
        -- by destruct (Hother s Hin).
      * intros Hall s Hin (Ht & Hl & Hn). by destruct (Hall s Hin Ht Hn).
Qed.

(** X19 on a table whose only [helper] is Local to "a.c", asked for "b.c". *)
Lemma getFunctionByName_sound_witness :
  getFunctionByName "helper" (Some "b.c")
    {| symbols := [helper_local 0x40 0x10; foo]; sections := [text_section 0x34 2] |}
  = None
  ∧ (Sym.type foo = SymbolType.Function ∧ Sym.name foo = "foo").
Proof.
  split.
  - apply (proj2 (getFunctionByName_sound "helper" (Some "b.c")
                    {| symbols := [helper_local 0x40 0x10; foo];
                       sections := [text_section 0x34 2] |})).
    intros s Hin Ht Hn.
    apply elem_of_cons in Hin as [->|Hin]; [by split; [|intros [=]]|].
    apply elem_of_cons in Hin as [->|Hin]; [discriminate Hn|].
    by apply elem_of_nil in Hin.
  - destruct (proj1 (getFunctionByName_sound "foo" None
                       {| symbols := [helper_local 0x40 0x10; foo];
                          sections := [text_section 0x34 2] |}) foo eq_refl)
      as (_ & Ht & Hn & _).
    by split.
Defined.

(** X20. With the file left out, [getFunctionByName] never returns a Local
    function: the file of a symbol is a string or null, and neither is
    identical to undefined. It then returns the first Function of that name
    whose scope is not Local, whether the table has a Local one or not. *)
Theorem getFunctionByName_without_file name t :
  getFunctionByName name None t = find (isOtherFunction name) (symbols t)
  ∧ ∀ s, getFunctionByName name None t = Some s → Sym.scope s ≠ SymbolScope.Local.
Proof.
  assert (H : getFunctionByName name None t = find (isOtherFunction name) (symbols t)).
  { rewrite getFunctionByName_find.
    destruct (find (isLocalFunction name None) (symbols t)) as [l|] eqn:El; [|done].
    apply find_Some in El as (_ & _ & _ & _ & Hf). by destruct (Sym.file l). }
  split; [done|]. intros s. rewrite H. by intros (_ & _ & ? & _)%find_Some.
Qed.

(** X20 on a table whose only [helper] is Local, and on a table that also
    has a Global one. *)
Lemma getFunctionByName_without_file_witness :
  getFunctionByName "helper" None
    {| symbols := [helper_local 0x40 0x10]; sections := [text_section 0x34 2] |}
  = None
  ∧ Sym.scope (helper_global 0x80 0x10) ≠ SymbolScope.Local.
Proof.
  split.
  - exact (proj1 (getFunctionByName_without_file "helper"
                    {| symbols := [helper_local 0x40 0x10];
                       sections := [text_section 0x34 2] |})).
  - exact (proj2 (getFunctionByName_without_file "helper"
                    {| symbols := [helper_local 0x40 0x10; helper_global 0x80 0x10];
                       sections := [text_section 0x34 2] |})
             (helper_global 0x80 0x10) eq_refl).
Defined.

Lemma filter_nil_Forall {A} (P : A → Prop) `{∀ x, Decision (P x)} (l : list A) :
  (∀ x, x ∈ l → ¬ P x) → filter P l = [].
Proof.
  intros Hl. induction l as [|x l IH]; [done|].
  rewrite filter_cons_False by (apply Hl; left).
  apply IH. intros ? ?. apply Hl. by right.
Qed.

(** X21. Nothing is local to the marker of link-time optimization. In every
    table built by the constructor, relocated or not, [getStaticVariables]
    returns nothing for "<artificial>" and nothing for the empty string, and
    [getFunctionByName] for the file "<artificial>" returns what it returns
    with the file left out: a function whose scope is not Local. *)
Theorem nothing_local_to_artificial t :
  reachable t →
  getStaticVariables "<artificial>" t = []
  ∧ getStaticVariables "" t = []
  ∧ ∀ name, getFunctionByName name (Some "<artificial>") t
            = getFunctionByName name None t.
Proof.
  intros Hreach%reachable_Forall_wellFiled. rewrite Forall_forall in Hreach.
  assert (Hnot : ∀ s f, s ∈ symbols t → f = "" ∨ f = "<artificial>" →
                        ¬ sameFile (Sym.file s) (Some f)).
  { intros s f Hs Hf. specialize (Hreach s Hs). unfold wellFiled in Hreach.
    destruct (Sym.file s) as [g|]; simpl; [|by intros []].
    destruct Hreach as (_ & ? & ?). by intros <-; destruct Hf. }
  split_and!.
  - apply filter_nil_Forall. intros s Hs (_ & _ & Hf).
    by apply (Hnot s "<artificial>" Hs); [right|].
  - apply filter_nil_Forall. intros s Hs (_ & _ & Hf).
    by apply (Hnot s "" Hs); [left|].
  - intros name. rewrite !getFunctionByName_find.
    assert (H1 : find (isLocalFunction name (Some "<artificial>")) (symbols t) = None).
    { apply find_None. intros s Hs (_ & _ & _ & Hf).
      by apply (Hnot s "<artificial>" Hs); [right|]. }
    assert (H2 : find (isLocalFunction name None) (symbols t) = None).
    { apply find_None. intros s Hs (_ & _ & _ & Hf). by destruct (Sym.file s). }
    by rewrite H1, H2.
Qed.

(** X21 on the table of a link-time-optimized unit. *)
Lemma nothing_local_to_artificial_witness :
  getStaticVariables "<artificial>" lto_table = []
  ∧ getStaticVariables "" lto_table = []
  ∧ ∀ name, getFunctionByName name (Some "<artificial>") lto_table
            = getFunctionByName name None lto_table.
Proof.
  exact (nothing_local_to_artificial lto_table
           (reachable_new headers_foo objdump_lto lto_table eq_refl)).
Defined.

Lemma new_SymbolTable_bases headers syms t :
  new_SymbolTable headers syms = Returns t →
  ∀ s, s ∈ symbols t → Sym.base s = 0.
Proof.
  intros [_ Hsyms]%new_SymbolTable_Returns.
  apply getSymbols_Returns in Hsyms as (st & E & ->).
  apply decodeLines_Returns in E as (ext & -> & Hext). simpl.
  intros s Hs. rewrite Forall_forall in Hext. by apply Hext.
Qed.

(** X22. No symbol is both a symbol variable and a constant variable: the one
    list asks for a base above 0 and the other for base 0. In the table that
    the constructor returns, before any relocation, [getSymbolVariables] is
    empty. *)
Theorem symbol_and_const_variables t :
  (∀ s, s ∈ getSymbolVariables t → s ∉ getConstVariables t)
  ∧ (∀ headers syms, new_SymbolTable headers syms = Returns t →
                     getSymbolVariables t = []).
Proof.
  split.
  - unfold getSymbolVariables, getConstVariables.
    intros s [(_ & _ & _ & Hpos) _]%list_elem_of_filter
             [(_ & _ & _ & _ & _ & Hzero) _]%list_elem_of_filter.
    lia.
  - intros headers syms Hnew. apply filter_nil_Forall.
    intros s Hs (_ & _ & _ & Hpos).
    rewrite (new_SymbolTable_bases _ _ _ Hnew s Hs) in Hpos. lia.
Qed.

(** X22 on a relocated label, and on the table of the scenario. *)
Lemma symbol_and_const_variables_witness :
  (label_symbol ∉ getConstVariables
                    {| symbols := [label_symbol]; sections := [text_section 0x34 2] |})
  ∧ getSymbolVariables {| symbols := [foo]; sections := [text_section 0x34 2] |} = [].
Proof.
  split.
  - apply (proj1 (symbol_and_const_variables
                    {| symbols := [label_symbol]; sections := [text_section 0x34 2] |})).
    apply (bool_decide_unpack _). vm_compute. exact I.
  - exact (proj2 (symbol_and_const_variables
                    {| symbols := [foo]; sections := [text_section 0x34 2] |})
             headers_foo objdump_foo eq_refl).
Defined.

Lemma filter_ext_in {A} (P Q : A → Prop) `{∀ x, Decision (P x)} `{∀ x, Decision (Q x)}
    (l : list A) :
  (∀ x, x ∈ l → P x ↔ Q x) → filter P l = filter Q l.
Proof.
  intros Hl. induction l as [|x l IH]; [done|].
  rewrite !filter_cons, IH by (intros ? ?; apply Hl; by right).
  destruct (decide (P x)) as [Hp|Hp]; destruct (decide (Q x)) as [Hq|Hq]; try done.
  - destruct Hq. apply (Hl x); [left | done].
  - destruct Hp. apply (Hl x); [left | done].
Qed.

(** X23. Before any relocation the flag [relocated] makes no difference: in
    the table that the constructor returns every base is 0, and
    [getFunctionAtAddress] returns the same symbol for both values of the
    flag. *)
Theorem getFunctionAtAddress_before_relocation headers syms t address :
  new_SymbolTable headers syms = Returns t →
  getFunctionAtAddress address true t = getFunctionAtAddress address false t.
Proof.
  intros Hnew. unfold getFunctionAtAddress. f_equal.
  apply filter_ext_in. intros s Hs. unfold effectiveAddress.
  by rewrite (new_SymbolTable_bases _ _ _ Hnew s Hs), Z.add_0_r.
Qed.

(** X23 on the scenario. *)
Lemma getFunctionAtAddress_before_relocation_witness :
  getFunctionAtAddress 0x50 true {| symbols := [foo]; sections := [text_section 0x34 2] |}
  = getFunctionAtAddress 0x50 false {| symbols := [foo]; sections := [text_section 0x34 2] |}.
Proof.
  exact (getFunctionAtAddress_before_relocation headers_foo objdump_foo
           {| symbols := [foo]; sections := [text_section 0x34 2] |} 0x50 eq_refl).
Defined.

Lemma filter_fmap_in {A B} (f : A → B) (P : B → Prop) (Q : A → Prop)
    `{∀ y, Decision (P y)} `{∀ x, Decision (Q x)} (l : list A) :
  (∀ x, x ∈ l → P (f x) ↔ Q x) → filter P (f <$> l) = f <$> filter Q l.
Proof.
  intros Hl. induction l as [|x l IH]; [done|].
  rewrite fmap_cons, !filter_cons, IH by (intros ? ?; apply Hl; by right).
  destruct (decide (P (f x))) as [Hp|Hp]; destruct (decide (Q x)) as [Hq|Hq]; try done.
  - destruct Hq. apply (Hl x); [left | done].
  - destruct Hp. apply (Hl x); [left | done].
Qed.

(** X24. A load at a uniform offset shifts the lookup by address. When every
    Function symbol of the table belongs to a Section that is flagged ALLOC,
    has a size above 0 and has the vma [v], then after
    [relocateWithOffset(off)] the relocated lookup of [address + v + off]
    returns the symbol that the static lookup of [address] returned before,
    with its new base. *)
Theorem relocated_lookup_shift off v t address :
  (∀ s, s ∈ symbols t → Sym.type s = SymbolType.Function →
        ∃ sec, owningSection t s = Some sec
               ∧ isLoaded sec = true ∧ Sec.vma sec = v) →
  getFunctionAtAddress (address + v + off) true (relocateWithOffset off t)
  = updateBase (sections (relocateWithOffset off t))
      <$> getFunctionAtAddress address false t.
Proof.
  intros Hfun. rewrite relocateWithOffset_moved. unfold getFunctionAtAddress.
  simpl. unfold updateBases. rewrite <- head_updateBases. unfold updateBases.
  f_equal. apply filter_fmap_in. intros s Hs.
  destruct (updateBase_fields (moved off <$> sections t) s)
    as (Ha & Ht & _ & Hsz & _ & _).
  unfold effectiveAddress. rewrite Ha, Ht, Hsz.
  destruct (decide (Sym.type s = SymbolType.Function)) as [Hf|Hf];
    [|by split; intros [? _]].
  destruct (Hfun s Hs Hf) as (sec & Hsec & Hl & Hv).
  assert (Hb : Sym.base (updateBase (moved off <$> sections t) s) = v + off).
  { unfold updateBase. rewrite find_moved. unfold owningSection in Hsec.
    rewrite Hsec. simpl. unfold moved. rewrite Hl. simpl. by rewrite Hv. }
  rewrite Hb. split; intros (? & ? & ?); split_and!; try done; lia.
Qed.

(** X24 on the table of the scenario. *)
Lemma relocated_lookup_shift_witness :
  let t := {| symbols := [foo]; sections := [text_section 0x34 2] |} in
  getFunctionAtAddress (0x50 + 0x1000 + 0x8000) true (relocateWithOffset 0x8000 t)
  = updateBase (sections (relocateWithOffset 0x8000 t))
      <$> getFunctionAtAddress 0x50 false t.
Proof.
  intros t. apply (relocated_lookup_shift 0x8000 0x1000 t 0x50).
  intros s Hs _. exists (text_section 0x34 2).
  apply elem_of_cons in Hs as [->|Hs]; [by split_and!|].
  by apply elem_of_nil in Hs.
Defined.

(** ** The current file *)

Lemma decodeMatch_file secs st m st' :
  decodeMatch secs st m = Returns st' →
  currentFile st' = currentFileAt st m
  ∧ ∃ sym, pushed st' = pushed st ++ [sym]
           ∧ (Sym.scope sym = SymbolScope.Local → Sym.file sym = currentFileAt st m).
Proof.
  unfold decodeMatch, currentFileAt.
  set (cf := if _ && _ then _ else currentFile st).
  destruct (startsWith _ _);
    (case_match; [done|]; intros [= <-]; split; [done|];
     eexists; split; [reflexivity|]; simpl; intros Hl;
     by rewrite (bool_decide_eq_true_2 _ Hl)).
Qed.

Lemma currentFileAt_marker st line m :
  matchSymbol line = Some m →
  currentFileAt st m = from_option Some (currentFile st) (markerOf line).
Proof.
  intros Hm. unfold currentFileAt, markerOf. rewrite Hm. simpl.
  by destruct (_ && _).
Qed.

(** The loop keeps in [currentFile] the name on the last marker it has
    passed, and pushes one Symbol per matching line. *)
Lemma decodeLines_currentFile secs lines :
  ∀ st st',
    decodeLines secs st lines = Returns st' →
    currentFile st' = from_option Some (currentFile st) (lastMarker lines)
    ∧ length (pushed st') = (length (pushed st) + length (omap matchSymbol lines))%nat.
Proof.
  induction lines as [|l lines IH]; intros st st'.
  { intros [= <-]. split; [done|]. change (omap matchSymbol []) with (@nil SymbolMatch).
    simpl. by rewrite Nat.add_0_r. }
  change (omap matchSymbol (l :: lines))
    with (match matchSymbol l with
          | Some y => y :: omap matchSymbol lines
          | None => omap matchSymbol lines
          end).
  simpl. unfold decodeLine.
  destruct (matchSymbol l) as [m|] eqn:Hm; simpl.
  - destruct (decodeMatch secs st m) as [st1|] eqn:E; simpl; [|done].
    apply decodeMatch_file in E as (Hcf & sym & Hpush & _).
    intros [-> ->]%IH. rewrite Hcf, Hpush, length_app. simpl.
    split; [|lia]. rewrite (currentFileAt_marker st l m Hm).
    unfold lastMarker.
    change (omap markerOf (l :: lines))
      with (match markerOf l with
            | Some y => y :: omap markerOf lines
            | None => omap markerOf lines
            end).
    destruct (markerOf l) as [f|]; simpl; [|done].
    rewrite last_cons. by destruct (last (omap markerOf lines)).
  - intros [-> ->]%IH. split; [|done].
    unfold lastMarker.
    change (omap markerOf (l :: lines))
      with (match markerOf l with
            | Some y => y :: omap markerOf lines
            | None => omap markerOf lines
            end).
    unfold markerOf at 2. by rewrite Hm.
Qed.

(** X25. The file of a Local symbol is the name on the nearest compile-unit
    marker at or before its line. When [getSymbols] returns and the report is
    [pre], then a matching [line], then [post], the Symbol of [line] is at the
    index that counts the matching lines of [pre], and if its scope is Local
    its file is the trimmed name of the last marker among [pre] and [line]. *)
Theorem getSymbols_file_of_local secs objdump pre line post m syms :
  splitLF (removeCR (stdout objdump)) = pre ++ line :: post →
  matchSymbol line = Some m →
  getSymbols secs objdump = Returns syms →
  ∃ s, syms !! length (omap matchSymbol pre) = Some s
       ∧ Sym.name s = symbolName m
       ∧ (Sym.scope s = SymbolScope.Local →
          Sym.file s = lastMarker (pre ++ [line])).
Proof.
  intros Hlines Hm (stN & Hscan & ->)%getSymbols_Returns.
  revert Hscan. rewrite Hlines, decodeLines_app.
  destruct (decodeLines secs _ pre) as [st|] eqn:Epre; simpl; [|done].
  unfold decodeLine. rewrite Hm.
  destruct (decodeMatch secs st m) as [st1|] eqn:E; simpl; [|done].
  destruct (decodeLines_currentFile _ _ _ _ Epre) as [Hcf Hlen]. simpl in Hcf, Hlen.
  pose proof (decodeMatch_symbol _ _ _ _ _ Hm E) as (sym' & Hpush' & (_ & Hname & _) & _).
  apply decodeMatch_file in E as (_ & sym & Hpush & Hfile).
  rewrite Hpush in Hpush'. apply app_inj_tail in Hpush' as [_ <-].
  intros (ext & -> & _)%decodeLines_Returns. exists sym. split_and!; [|done|].
  - rewrite Hpush, <- app_assoc. rewrite lookup_app_r by lia.
    by rewrite Hlen, Nat.sub_diag.
  - intros Hl. rewrite (Hfile Hl), (currentFileAt_marker st line m Hm), Hcf.
    unfold lastMarker. rewrite omap_app. simpl.
    destruct (markerOf line) as [f|]; simpl; [by rewrite last_snoc|].
    rewrite app_nil_r. by destruct (last (omap markerOf pre)).
Qed.

(** X25 on a report with two compile units: [foo] is local to "b.c". *)
Lemma getSymbols_file_of_local_witness :
  ∃ s, [Sym.mk 0 0 SymbolType.File SymbolScope.Local "*ABS*" 0 "a.c" None (Some "a.c") false;
        Sym.mk 0x40 0 SymbolType.Function SymbolScope.Local ".text" 0x10 "helper" None
          (Some "a.c") false;
        Sym.mk 0 0 SymbolType.File SymbolScope.Local "*ABS*" 0 "b.c" None (Some "b.c") false;
        Sym.mk 0x50 0 SymbolType.Function SymbolScope.Local ".text" 0x20 "foo" None
          (Some "b.c") false] !! 3%nat = Some s
       ∧ Sym.name s = "foo"
       ∧ (Sym.scope s = SymbolScope.Local → Sym.file s = Some "b.c").
Proof.
  exact (getSymbols_file_of_local [text_section 0x34 2] objdump_units
           ["SYMBOL TABLE:";
            "00000000 l    df *ABS*" +:+ TAB +:+ "00000000 a.c";
            "00001040 l     F .text" +:+ TAB +:+ "00000010 helper";
            "00000000 l    df *ABS*" +:+ TAB +:+ "00000000 b.c"]
           local_line [""]
           {| m1 := "00001050"; m2 := "l"; m3 := " "; m4 := " "; m5 := " ";
              m6 := " "; m7 := " "; m8 := "F"; m9 := ".text";
              m10 := "00000020"; m11 := "foo" |}
           _ eq_refl eq_refl eq_refl).
Defined.
